(** * Neona20th: the greeting-card page of [src/App.jsx]

    A shallow embedding of the page's logic:
    - [useInView], the one-shot viewport tracker (a React hook around an
      [IntersectionObserver]);
    - [NarrativeSection], which picks the tracker's threshold and renders one
      image with a load-failure fallback;
    - [DynamicCollageBackground], which duplicates, shuffles and randomly
      places the background images;
    - [App], which owns the scroll listener of the scroll hint.

    JavaScript numbers are modelled as rationals ([Q]): every double is a
    rational, and the few arithmetic operations of the page are taken exact.
    [Math.random] is a state monad over an infinite supply of draws.  React
    state, refs, DOM elements and the host's observer registry are explicit
    records that are passed along. *)

From Stdlib Require Import QArith Qround ZArith Lia Lqa String Ascii List.
From stdpp Require Import base decidable option list strings pretty.

Local Open Scope string_scope.
Local Open Scope list_scope.

(** ** Numbers *)

(** [x < y] on JavaScript numbers, as a boolean. *)
Definition Qltb (x y : Q) : bool := negb (Qle_bool y x).

(** ** The static content: [imageDataMap] and [collageData] *)

Inductive Aspect := landscape | portrait | square.

Record ImageRecord := {
  filename : string;
  title : string;
  description : string;
  aspect : Aspect;
  alt : string
}.

(** An entry of [collageData]: [{...item, imgUrl}]. *)
Record CollageItem := {
  item : ImageRecord;
  imgUrl : string
}.

#[global] Instance Aspect_eq_dec : EqDecision Aspect.
Proof. solve_decision. Defined.

#[global] Instance ImageRecord_eq_dec : EqDecision ImageRecord.
Proof. solve_decision. Defined.

#[global] Instance CollageItem_eq_dec : EqDecision CollageItem.
Proof. solve_decision. Defined.

Definition imageDataMap : list ImageRecord := [
  {| filename := "skydive.png";
     title := "Neona the fearless";
     description := "She always flys headfirst (literally), her bravery knows no bounds. Always on the lookout for her next thrill.";
     aspect := landscape;
     alt := "Woman skydiving headfirst" |};
  {| filename := "badminton.png";
     title := "Neona the Badminton Champ";
     description := "Witnessing the rare 'Badminton Rage Mode.' Her opponent may need a new racket, and possibly therapy.";
     aspect := portrait;
     alt := "Woman aggressively playing badminton" |};
  {| filename := "everest.png";
     title := "Neona the everest conquerer (On the last day)";
     description := "If the due date was to conquer everest by tonight, she'll have it done by 11:59PM";
     aspect := square;
     alt := "Woman standing triumphantly on Mount Everest" |};
  {| filename := "thief.png";
     title := "Neona the master theif";
     description := "Executing a flawless infiltration to steal the last brick of chocolate. Her stealth is only matched by her hunger.";
     aspect := landscape;
     alt := "Woman dressed in black sneaking around" |};
  {| filename := "ceo.png";
     title := "Neona the Chief Executive Ochestra";
     description := "Holding an emergency board meeting so she can display her angelic voice, haven't heard any of her employees complain though";
     aspect := square;
     alt := "Woman sitting on the floor leading a business meeting" |};
  {| filename := "diving.png";
     title := "Neona the deep diver";
     description := "She went diving so deep that her browser crashed. Always researching and studying everything that intrigues her";
     aspect := portrait;
     alt := "Woman diving in the ocean with tropical fish" |}
].

Definition collageData : list CollageItem :=
  (fun it => {| item := it; imgUrl := "/images/" +:+ filename it |})
    <$> imageDataMap.

(** ** [useInView]: the viewport tracker *)

Module UseInView.

(** A DOM element, named by an identifier. *)
Definition Element := nat.

(** What the host reports in one [IntersectionObserverEntry]. *)
Record IntersectionObserverEntry := {
  isIntersecting : bool;
  intersectionRatio : Q
}.

(** The [options] object handed to [new IntersectionObserver]. *)
Record ObserverOptions := { threshold : Q }.

(** The hook instance together with the part of the host it talks to.
    [observing] is the host's registry of live (observer, target) pairs;
    [effect_observer] is the observer captured by the pending cleanup
    closure of the last effect run. *)
Record Hook := {
  inView : bool;
  ref_current : option Element;
  next_observer : nat;
  observing : list (nat * Element);
  effect_observer : option nat
}.

(** [useState(false)], [useRef(null)], no effect run yet. *)
Definition useInView_init : Hook :=
  {| inView := false; ref_current := None; next_observer := 0;
     observing := []; effect_observer := None |}.

Definition setInView (b : bool) (h : Hook) : Hook :=
  {| inView := b; ref_current := ref_current h;
     next_observer := next_observer h; observing := observing h;
     effect_observer := effect_observer h |}.

Definition set_ref (r : option Element) (h : Hook) : Hook :=
  {| inView := inView h; ref_current := r;
     next_observer := next_observer h; observing := observing h;
     effect_observer := effect_observer h |}.

(** The observer callback [([entry]) => { if (entry.isIntersecting)
    setInView(true) }].  It destructures the first entry of the delivered
    array; on an empty array [entry] is [undefined] and reading its property
    throws, which is [None] here. *)
Definition observer_callback (entries : list IntersectionObserverEntry)
    (h : Hook) : option Hook :=
  match entries with
  | [] => None
  | entry :: _ =>
      if isIntersecting entry then Some (setInView true h) else Some h
  end.

(** One callback invocation by the host; a throwing callback leaves the
    React state as it was. *)
Definition deliver (entries : list IntersectionObserverEntry) (h : Hook)
    : Hook :=
  match observer_callback entries h with
  | Some h' => h'
  | None => h
  end.

(** [observer.observe(el)] and [observer.unobserve(el)] on the host's
    registry. *)
Definition observe (o : nat) (el : Element) (reg : list (nat * Element))
    : list (nat * Element) :=
  if decide ((o, el) ∈ reg) then reg else (o, el) :: reg.

Definition unobserve (o : nat) (el : Element) (reg : list (nat * Element))
    : list (nat * Element) :=
  filter (fun p => p ≠ (o, el)) reg.

(** The effect body: a fresh observer, which observes [ref.current] when it
    is set; the returned cleanup closure captures that observer. *)
Definition useInView_effect (options : ObserverOptions) (h : Hook) : Hook :=
  let observer := next_observer h in
  {| inView := inView h; ref_current := ref_current h;
     next_observer := S observer;
     observing := match ref_current h with
                  | Some el => observe observer el (observing h)
                  | None => observing h
                  end;
     effect_observer := Some observer |}.

(** The cleanup closure: it reads [ref.current] when it runs, not when the
    effect ran. *)
Definition useInView_cleanup (h : Hook) : Hook :=
  match effect_observer h with
  | None => h
  | Some observer =>
      {| inView := inView h; ref_current := ref_current h;
         next_observer := next_observer h;
         observing := match ref_current h with
                      | Some el => unobserve observer el (observing h)
                      | None => observing h
                      end;
         effect_observer := None |}
  end.

(** React's life cycle around the hook.  At mount React attaches the ref the
    caller put on an element (or leaves it [null] when the caller put it on
    none) and then runs the effect.  A render whose [options] dependency
    changed runs the cleanup and then the effect again.  At unmount React
    detaches the ref of the removed element during the commit and runs the
    passive-effect cleanup afterwards. *)
Definition mount (target : option Element) (options : ObserverOptions)
    : Hook :=
  useInView_effect options (set_ref target useInView_init).

Definition rerender (deps_changed : bool) (options : ObserverOptions)
    (h : Hook) : Hook :=
  if deps_changed then useInView_effect options (useInView_cleanup h) else h.

Definition unmount (h : Hook) : Hook :=
  useInView_cleanup (set_ref None h).

(** What can happen to a mounted instance. *)
Inductive Event :=
| Notify (entries : list IntersectionObserverEntry)
| Rerender (deps_changed : bool) (options : ObserverOptions)
| RefSet (r : option Element).

Definition step (h : Hook) (e : Event) : Hook :=
  match e with
  | Notify entries => deliver entries h
  | Rerender c o => rerender c o h
  | RefSet r => set_ref r h
  end.

Definition run (es : list Event) (h : Hook) : Hook := fold_left step es h.

(** A notification qualifies when the entry the callback looks at reports
    the element as intersecting. *)
Definition qualifies (entries : list IntersectionObserverEntry) : bool :=
  match entries with
  | entry :: _ => isIntersecting entry
  | [] => false
  end.

Definition qualifying (e : Event) : bool :=
  match e with
  | Notify entries => qualifies entries
  | _ => false
  end.

(** The instance has its ref on [el] and holds exactly one subscription,
    the one of its latest effect run. *)
Definition subscribed (el : Element) (h : Hook) : Prop :=
  ref_current h = Some el
  /\ exists o, effect_observer h = Some o /\ observing h = [(o, el)].

Definition keeps_ref (e : Event) : bool :=
  match e with
  | RefSet _ => false
  | _ => true
  end.

End UseInView.

(** ** Image elements and their load-failure fallback *)

Module Dom.

(** The two [onError] arrow functions of the page differ only in the
    placeholder they install: [(e) => { e.target.onerror = null;
    e.target.src = placeholder }]. *)
Inductive Handler := Fallback (placeholder : string).

(** An [<img>] element as React creates it.  React registers the JSX
    [onError] prop as an ['error'] event listener on the element
    ([error_listener]); the element's own [onerror] property is a separate
    slot, which the handler writes.  [src_writes] logs the assignments to
    [src] made after creation, latest first: each one makes the host load the
    resource again. *)
Record Img := {
  src : string;
  img_alt : string;
  onerror : option Handler;
  error_listener : option Handler;
  src_writes : list string
}.

(** Running a handler on its [e.target]: first [onerror = null], then
    [src = placeholder]. *)
Definition run_handler (hd : Handler) (target : Img) : Img :=
  match hd with
  | Fallback placeholder =>
      let target1 :=
        {| src := src target; img_alt := img_alt target; onerror := None;
           error_listener := error_listener target;
           src_writes := src_writes target |} in
      {| src := placeholder; img_alt := img_alt target1;
         onerror := onerror target1;
         error_listener := error_listener target1;
         src_writes := placeholder :: src_writes target1 |}
  end.

Definition run_slot (slot : option Handler) (target : Img) : Img :=
  match slot with
  | Some hd => run_handler hd target
  | None => target
  end.

(** The host fires ['error'] at an element whose resource failed to load:
    the handler in the [onerror] property runs, then the registered
    listener. *)
Definition dispatch_error (target : Img) : Img :=
  let after_property := run_slot (onerror target) target in
  run_slot (error_listener target) after_property.

(** [<img src=... alt=... onError={handler} />]. *)
Definition create_img (url alt_text : string) (hd : Handler) : Img :=
  {| src := url; img_alt := alt_text; onerror := None;
     error_listener := Some hd; src_writes := [] |}.

(** [n] load failures in a row on one element. *)
Fixpoint fail_times (n : nat) (target : Img) : Img :=
  match n with
  | 0 => target
  | S n' => fail_times n' (dispatch_error target)
  end.

End Dom.

(** ** [NarrativeSection] *)

Module Narrative.

Definition placeholder : string :=
  "https://placehold.co/800x600/9ca3af/ffffff?text=Image+Missing".

(** [window.innerWidth < 768 ? 0.1 : 0.3] *)
Definition threshold_for (innerWidth : Q) : Q :=
  if Qltb innerWidth 768 then 0.1 else 0.3.

(** What one section computes in a render: the options it passes to
    [useInView], its layout switches and its image element. *)
Record View := {
  options : UseInView.ObserverOptions;
  isReversed : bool;
  mobileHeightClass : string;
  revealed : bool;
  image : Dom.Img
}.

Definition NarrativeSection (innerWidth : Q) (it : CollageItem) (index : nat)
    (inView : bool) : View :=
  let threshold := threshold_for innerWidth in
  {| options := {| UseInView.threshold := threshold |};
     isReversed := negb (index mod 2 =? 0)%nat;
     mobileHeightClass :=
       match aspect (item it) with
       | portrait => "h-[60vh]"
       | _ => "h-[40vh]"
       end;
     revealed := inView;
     image := Dom.create_img (imgUrl it)
                (if decide (alt (item it) = "") then title (item it)
                 else alt (item it))
                (Dom.Fallback placeholder) |}.

(** The sections of the page: [collageData.map((item, index) => ...)], each
    with the [inView] of its own tracker. *)
Definition sections (innerWidth : Q) (trackers : list bool) : list View :=
  imap (fun index it =>
          NarrativeSection innerWidth it index
            (default false (trackers !! index)))
       collageData.

(** A load failure of the image of section [i]. *)
Definition image_error (i : nat) (views : list View) : list View :=
  alter (fun v =>
           {| options := options v; isReversed := isReversed v;
              mobileHeightClass := mobileHeightClass v;
              revealed := revealed v;
              image := Dom.dispatch_error (image v) |}) i views.

End Narrative.

(** ** [Math.random] *)

(** The draws still to come, next one first. *)
Definition RandomSource := nat -> Q.

Definition Rand (A : Type) : Type := RandomSource -> A * RandomSource.

Definition ret {A} (a : A) : Rand A := fun s => (a, s).

Definition bind {A B} (c : Rand A) (k : A -> Rand B) : Rand B :=
  fun s => let (a, s') := c s in k a s'.

Notation "x <- c ;; k" := (bind c (fun x => k))
  (at level 100, c at next level, right associativity).

Definition Math_random : Rand Q :=
  fun s => (s 0%nat, fun n => s (S n)).

(** [Math.floor] of a number, as an array index. *)
Definition Math_floor (q : Q) : Z := Qfloor q.

(** [l.map(f)] where [f] draws random numbers, elements in order. *)
Fixpoint mapM {A B} (f : A -> Rand B) (l : list A) : Rand (list B) :=
  match l with
  | [] => ret []
  | a :: l' => b <- f a ;; bs <- mapM f l' ;; ret (b :: bs)
  end.

(** [l.map((item, index) => f)], counting from [index]. *)
Fixpoint mapM_index {A B} (f : nat -> A -> Rand B) (index : nat)
    (l : list A) : Rand (list B) :=
  match l with
  | [] => ret []
  | a :: l' => b <- f index a ;; bs <- mapM_index f (S index) l' ;;
               ret (b :: bs)
  end.

(** [Array.from({ length }, (_, i) => f i)] *)
Definition Array_from {A} (length : nat) (f : nat -> Rand A)
    : Rand (list A) :=
  mapM f (seq 0 length).

(** ** [DynamicCollageBackground] *)

Module Collage.

Definition placeholder : string :=
  "https://placehold.co/300x300/1e293b/94a3b8?text=Image".

(** [{...img, uniqueKey}] *)
Record DenseItem := {
  img : CollageItem;
  uniqueKey : string
}.

(** One rendered [<img>] of the collage: its React key, its inline style
    (numbers without their unit suffix) and the element itself. *)
Record Placement := {
  sourceImage : DenseItem;
  key : string;
  x : Q;                  (* left, percent *)
  y : Q;                  (* top, percent *)
  rotation : Q;           (* deg *)
  size : Q;               (* width and height, vh *)
  opacity : Q;
  animationDuration : Q;  (* seconds *)
  animationDelay : Q;     (* seconds *)
  zIndex : Z;
  element : Dom.Img
}.

Definition duplicationFactor : nat := 4.

(** [arr[i], arr[j]] = [arr[j], arr[i]].  Both indices are inside the array
    whenever the draws are in [0,1) (see [shuffle_index_in_range]); outside
    it JavaScript would store [undefined], which no run of the page
    reaches, and the list is returned as it is. *)
Definition swap {A} (i j : nat) (arr : list A) : list A :=
  match arr !! i, arr !! j with
  | Some ai, Some aj => <[j := ai]> (<[i := aj]> arr)
  | _, _ => arr
  end.

(** [for (let i = ...; i > 0; i--) { const j = Math.floor(Math.random() *
    (i + 1)); swap }], entered with the loop variable at [i]. *)
Fixpoint shuffle_from {A} (i : nat) (arr : list A) : Rand (list A) :=
  match i with
  | 0%nat => ret arr
  | S i' =>
      r <- Math_random ;;
      let j := Z.to_nat (Math_floor (r * inject_Z (Z.of_nat (i + 1)))) in
      shuffle_from i' (swap i j arr)
  end.

Definition shuffle {A} (arr : list A) : Rand (list A) :=
  shuffle_from (length arr - 1) arr.

Section WithHost.

(** The host's rendering of a number inside a template literal. *)
Variable numToString : Q -> string.

(** [`${img.filename}-${i}-${Math.random()}`] *)
Definition make_key (name : string) (i : nat) (r : Q) : string :=
  name +:+ "-" +:+ pretty i +:+ "-" +:+ numToString r.

Definition tag (i : nat) (im : CollageItem) : Rand DenseItem :=
  r <- Math_random ;;
  ret {| img := im; uniqueKey := make_key (filename (item im)) i r |}.

(** [Array.from({ length: k }, (_, i) => images.map(tag i)).flat()] *)
Definition expand (k : nat) (images : list CollageItem)
    : Rand (list DenseItem) :=
  rows <- Array_from k (fun i => mapM (tag i) images) ;;
  ret (concat rows).

(** The callback of [denseCollageImages.map((item, index) => <img ... />)];
    the draws are made in the order of the source text. *)
Definition place (index : nat) (it : DenseItem) : Rand Placement :=
  rx <- Math_random ;;
  ry <- Math_random ;;
  rrot <- Math_random ;;
  rsize <- Math_random ;;
  ropacity <- Math_random ;;
  rz <- Math_random ;;
  ret {| sourceImage := it;
         key := uniqueKey it;
         x := rx * 100;
         y := ry * 100;
         rotation := rrot * 60 - 30;
         size := 30 + rsize * 50;
         opacity := 0.6 + ropacity * 0.4;
         animationDuration := 30 + inject_Z (Z.of_nat index) * 2;
         animationDelay := inject_Z (Z.of_nat index) * 1.5;
         zIndex := Math_floor (rz * 10);
         element := Dom.create_img (imgUrl (img it)) (alt (item (img it)))
                      (Dom.Fallback placeholder) |}.

(** The generator with the duplication factor as a parameter. *)
Definition generate (k : nat) (images : list CollageItem)
    : Rand (list Placement) :=
  denseCollageImages <- expand k images ;;
  shuffled <- shuffle denseCollageImages ;;
  mapM_index place 0 shuffled.

Definition DynamicCollageBackground (images : list CollageItem)
    : Rand (list Placement) :=
  generate duplicationFactor images.

End WithHost.

(** A load failure of the image of the placement at position [i]. *)
Definition image_error (i : nat) (placements : list Placement)
    : list Placement :=
  alter (fun p =>
           {| sourceImage := sourceImage p; key := key p; x := x p;
              y := y p; rotation := rotation p; size := size p;
              opacity := opacity p;
              animationDuration := animationDuration p;
              animationDelay := animationDelay p; zIndex := zIndex p;
              element := Dom.dispatch_error (element p) |}) i placements.

(** The style of a placement without its element. *)
Definition style_of (p : Placement)
    : DenseItem * string * (Q * Q * Q * Q * Q) * (Q * Q * Z) :=
  (sourceImage p, key p, (x p, y p, rotation p, size p, opacity p),
   (animationDuration p, animationDelay p, zIndex p)).

(** The ranges of the random style values. *)
Definition in_ranges (p : Placement) : Prop :=
  (0 <= x p /\ x p <= 100)%Q /\
  (0 <= y p /\ y p <= 100)%Q /\
  (-30 <= rotation p /\ rotation p <= 30)%Q /\
  (30 <= size p /\ size p <= 80)%Q /\
  (0.6 <= opacity p /\ opacity p <= 1)%Q /\
  (0 <= zIndex p <= 9)%Z.

End Collage.

(** ** [App]: the scroll hint *)

Module App.

(** Function objects are named by the render that created them. *)
Definition Fn := nat.

(** The page component and the window's ['scroll'] listeners.
    [handleScroll_memo] is the cell of [useCallback(..., [])],
    [effect_deps] the [[handleScroll]] of the last effect run. *)
Record Page := {
  showScrollIndicator : bool;
  handleScroll_memo : option Fn;
  effect_deps : option Fn;
  scroll_listeners : list Fn;
  renders : nat
}.

Definition App_init : Page :=
  {| showScrollIndicator := true; handleScroll_memo := None;
     effect_deps := None; scroll_listeners := []; renders := 0 |}.

Definition setShowScrollIndicator (b : bool) (p : Page) : Page :=
  {| showScrollIndicator := b; handleScroll_memo := handleScroll_memo p;
     effect_deps := effect_deps p; scroll_listeners := scroll_listeners p;
     renders := renders p |}.

(** The body of [handleScroll].  [window] is [None] when [typeof window] is
    ['undefined'], and otherwise carries [window.scrollY]. *)
Definition handleScroll (window : option Q) (p : Page) : Page :=
  if match window with Some scrollY => Qltb 100 scrollY | None => false end
  then setShowScrollIndicator false p
  else if match window with
          | Some scrollY => Qle_bool scrollY 100
          | None => false
          end
  then setShowScrollIndicator true p
  else p.

(** [window.addEventListener('scroll', f)] keeps one copy of a listener. *)
Definition addEventListener (f : Fn) (ls : list Fn) : list Fn :=
  if decide (f ∈ ls) then ls else ls ++ [f].

Definition removeEventListener (f : Fn) (ls : list Fn) : list Fn :=
  filter (fun g => g ≠ f) ls.

(** One render followed by its effects: [useCallback] keeps the first
    function object, and the effect runs again only when its dependency is
    another object than last time. *)
Definition render (p : Page) : Page :=
  let fresh := renders p in
  let handle := default fresh (handleScroll_memo p) in
  if decide (effect_deps p = Some handle) then
    {| showScrollIndicator := showScrollIndicator p;
       handleScroll_memo := Some handle; effect_deps := effect_deps p;
       scroll_listeners := scroll_listeners p; renders := S (renders p) |}
  else
    let cleaned :=
      match effect_deps p with
      | Some old => removeEventListener old (scroll_listeners p)
      | None => scroll_listeners p
      end in
    {| showScrollIndicator := showScrollIndicator p;
       handleScroll_memo := Some handle; effect_deps := Some handle;
       scroll_listeners := addEventListener handle cleaned;
       renders := S (renders p) |}.

Definition mount : Page := render App_init.

(** Unmount runs the cleanup of the last effect. *)
Definition unmount (p : Page) : Page :=
  match effect_deps p with
  | Some old =>
      {| showScrollIndicator := showScrollIndicator p;
         handleScroll_memo := handleScroll_memo p; effect_deps := None;
         scroll_listeners := removeEventListener old (scroll_listeners p);
         renders := renders p |}
  | None => p
  end.

(** The window fires ['scroll'] with the given offset: every registered
    listener runs. *)
Definition fire_scroll (scrollY : Q) (p : Page) : Page :=
  fold_left (fun q _ => handleScroll (Some scrollY) q) (scroll_listeners p) p.

Inductive Event := Render | Scroll (scrollY : Q).

Definition step (p : Page) (e : Event) : Page :=
  match e with
  | Render => render p
  | Scroll scrollY => fire_scroll scrollY p
  end.

Definition run (es : list Event) (p : Page) : Page := fold_left step es p.

(** The offset of the latest scroll notification of a trace, if any. *)
Definition last_scroll_from (acc : option Q) (es : list Event) : option Q :=
  fold_left (fun a e => match e with Scroll y => Some y | Render => a end)
            es acc.

Definition last_scroll (es : list Event) : option Q :=
  last_scroll_from None es.

(** What holds of the page from its mount to its unmount: the memoised
    [handleScroll] is the function of the first render and it is the only
    listener of the window. *)
Definition mounted (p : Page) : Prop :=
  handleScroll_memo p = Some 0%nat /\ effect_deps p = Some 0%nat
  /\ scroll_listeners p = [0%nat].

End App.

(** ** Assumptions on the host, as predicates *)

(** Every draw of the source lies in [0,1). *)
Definition in_unit (s : RandomSource) : Prop :=
  forall n : nat, (0 <= s n /\ s n < 1)%Q.

(** In the text of a number a dash occurs only right after an [e], as in
    [1.5e-7]; [after_e] tells whether the character just read was an [e]. *)
Fixpoint dash_only_after_e (after_e : bool) (s : string) : bool :=
  match s with
  | EmptyString => true
  | String c s' =>
      if Ascii.eqb c "-" then after_e && dash_only_after_e false s'
      else dash_only_after_e (Ascii.eqb c "e") s'
  end.

Definition number_text (numToString : Q -> string) : Prop :=
  forall r : Q, dash_only_after_e false (numToString r) = true.

(** The characters of a string. *)
Abbreviation chars := list_ascii_of_string.

(** A decimal digit. *)
Definition is_digit (c : ascii) : bool :=
  (48 <=? nat_of_ascii c)%nat && (nat_of_ascii c <=? 57)%nat.

(** A small host and a small random source to run the definitions on. *)
Definition sample_numToString (q : Q) : string :=
  if Qeq_bool q 0 then "0"
  else if Qle_bool (1 # 2) q then "0.75" else "2.5e-7".

Definition sample_source : RandomSource :=
  fun n => Z.of_nat (n mod 7) # 7.

Definition sample_images : list CollageItem := [
  {| item := {| filename := "a.png"; title := "A"; description := "";
                aspect := square; alt := "a" |};
     imgUrl := "/images/a.png" |};
  {| item := {| filename := "b.png"; title := "B"; description := "";
                aspect := portrait; alt := "" |};
     imgUrl := "/images/b.png" |}
].

(** ** Specifications of computations that draw random numbers *)

(** [spec I c P]: run from a source satisfying [I], the computation [c]
    returns a value satisfying [P] and leaves a source satisfying [I]. *)
Definition spec (I : RandomSource -> Prop) {A} (c : Rand A)
    (P : A -> Prop) : Prop :=
  forall s, I s -> P (fst (c s)) /\ I (snd (c s)).

(** [draws_exactly c d P]: from any source, [c] returns a value satisfying
    [P] and leaves the source advanced by exactly [d] draws. *)
Definition draws_exactly {A} (c : Rand A) (d : nat) (P : A -> Prop) : Prop :=
  forall s, P (fst (c s)) /\ forall n, snd (c s) n = s (d + n)%nat.

(** The result of an indexed map, position by position. *)
Definition pointwise {A B} (R : nat -> A -> B -> Prop) (index : nat)
    (l : list A) (out : list B) : Prop :=
  length out = length l
  /\ forall i b, out !! i = Some b ->
       exists a, l !! i = Some a /\ R (index + i)%nat a b.

(** ** What the steps of the collage generator establish *)

Module CollageSpec.
Import Collage.

(** The expansion in the order it is built: repetition index by repetition
    index, the images in their order. *)
Definition tags (k : nat) (images : list CollageItem)
    : list (nat * CollageItem) :=
  concat ((fun i => (fun im => (i, im)) <$> images) <$> seq 0 k).

(** A dense item made from image [snd t] in repetition [fst t]. *)
Definition tagged (numToString : Q -> string) (t : nat * CollageItem)
    (d : DenseItem) : Prop :=
  img d = snd t
  /\ exists r, uniqueKey d
               = make_key numToString (filename (item (snd t))) (fst t) r.

(** A placement made by [place index d] from six draws satisfying [Hd]. *)
Definition placed (Hd : Q -> Prop) (index : nat) (d : DenseItem)
    (p : Placement) : Prop :=
  sourceImage p = d /\ key p = uniqueKey d
  /\ animationDuration p = (30 + inject_Z (Z.of_nat index) * 2)%Q
  /\ animationDelay p = (inject_Z (Z.of_nat index) * 1.5)%Q
  /\ element p = Dom.create_img (imgUrl (img d)) (alt (item (img d)))
                   (Dom.Fallback placeholder)
  /\ exists rx ry rrot rsize ropacity rz,
       (Hd rx /\ Hd ry /\ Hd rrot /\ Hd rsize /\ Hd ropacity /\ Hd rz)
       /\ x p = (rx * 100)%Q /\ y p = (ry * 100)%Q
       /\ rotation p = (rrot * 60 - 30)%Q /\ size p = (30 + rsize * 50)%Q
       /\ opacity p = (0.6 + ropacity * 0.4)%Q
       /\ zIndex p = Math_floor (rz * 10).

Definition unit_draw (r : Q) : Prop := (0 <= r /\ r < 1)%Q.

(** The repetition index and file name of a tag. *)
Definition name_of (t : nat * CollageItem) : nat * string :=
  (fst t, filename (item (snd t))).

(** What a run of the generator yields: an expansion, a permutation of it,
    and one placement per shuffled item, in order. *)
Definition generated (numToString : Q -> string) (Hd : Q -> Prop) (k : nat)
    (images : list CollageItem) (out : list Placement) : Prop :=
  exists dense shuffled,
    Forall2 (tagged numToString) (tags k images) dense
    /\ shuffled ≡ₚ dense
    /\ pointwise (placed Hd) 0 shuffled out.

End CollageSpec.

(** * Properties *)

(** ** Comparisons on numbers *)

Lemma Qltb_lt (x y : Q) : Qltb x y = true <-> (x < y)%Q.
Proof.
  unfold Qltb. rewrite negb_true_iff. split.
  - intros Hb. apply Qnot_le_lt. intros Hle.
    apply Qle_bool_iff in Hle. congruence.
  - intros Hlt. destruct (Qle_bool y x) eqn:Hb; [|reflexivity].
    apply Qle_bool_iff in Hb. exfalso. exact (Qlt_not_le _ _ Hlt Hb).
Qed.

Lemma Qltb_ge (x y : Q) : Qltb x y = false <-> (y <= x)%Q.
Proof.
  unfold Qltb. rewrite negb_false_iff. apply Qle_bool_iff.
Qed.

(** ** The viewport tracker *)

Module UseInViewFacts.
Import UseInView.

Lemma deliver_qualifying entries h :
  qualifies entries = true -> inView (deliver entries h) = true.
Proof.
  destruct entries as [|entry rest]; simpl; [discriminate|].
  unfold deliver; simpl. intros ->. reflexivity.
Qed.

Lemma deliver_not_qualifying entries h :
  qualifies entries = false -> deliver entries h = h.
Proof.
  destruct entries as [|entry rest]; unfold deliver; simpl; [reflexivity|].
  intros ->. reflexivity.
Qed.

Lemma inView_cleanup h : inView (useInView_cleanup h) = inView h.
Proof. unfold useInView_cleanup. destruct (effect_observer h); reflexivity. Qed.

(** No event ever writes [false] into the state. *)
Lemma step_keeps_true h e : inView h = true -> inView (step h e) = true.
Proof.
  intros Hv. destruct e as [entries|changed o|r]; simpl.
  - destruct (qualifies entries) eqn:Hq.
    + now apply deliver_qualifying.
    + now rewrite deliver_not_qualifying.
  - unfold rerender. destruct changed; [|assumption].
    simpl. now rewrite inView_cleanup.
  - assumption.
Qed.

Lemma run_keeps_true es : forall h, inView h = true -> inView (run es h) = true.
Proof.
  induction es as [|e es IH]; intros h Hv; simpl; [assumption|].
  apply IH. now apply step_keeps_true.
Qed.

Lemma step_qualifying h e : qualifying e = true -> inView (step h e) = true.
Proof.
  destruct e as [entries| |]; simpl; try discriminate.
  apply deliver_qualifying.
Qed.

Lemma step_not_qualifying h e :
  qualifying e = false -> inView (step h e) = inView h.
Proof.
  destruct e as [entries|changed o|r]; simpl; intros Hq.
  - now rewrite deliver_not_qualifying.
  - unfold rerender. destruct changed; [|reflexivity].
    simpl. apply inView_cleanup.
  - reflexivity.
Qed.

Lemma run_app es1 es2 h : run (es1 ++ es2) h = run es2 (run es1 h).
Proof. unfold run. apply fold_left_app. Qed.

(** Once a notification whose first entry reports the element as
    intersecting has been delivered, the tracker's output is [true] after
    every later sequence of events (notifications that report nothing
    visible, re-subscriptions, ref changes), whatever the threshold and the
    target; and an output that is [true] stays [true]. *)
Theorem useInView_latches (t : Q) (target : option Element)
    (before after : list Event) (e : Event) :
  qualifying e = true ->
  inView (run (before ++ e :: after) (mount target {| threshold := t |}))
    = true
  /\ (forall h es more,
        inView (run es h) = true -> inView (run (es ++ more) h) = true).
Proof.
  intros Hq. split.
  - rewrite run_app. simpl. apply run_keeps_true. now apply step_qualifying.
  - intros h es more Hv. rewrite run_app. now apply run_keeps_true.
Qed.

(** The scenario of the specification: threshold 0.3, a notification with
    fraction 0.5 and then one with fraction 0 that no longer intersects. *)
Lemma useInView_latches_witness :
  inView (run ([] ++ Notify [{| isIntersecting := true;
                                 intersectionRatio := 0.5 |}]
                  :: [Notify [{| isIntersecting := false;
                                 intersectionRatio := 0 |}]])
              (mount (Some 1%nat) {| threshold := 0.3 |})) = true.
Proof.
  exact (proj1 (useInView_latches 0.3 (Some 1%nat) []
           [Notify [{| isIntersecting := false; intersectionRatio := 0 |}]]
           (Notify [{| isIntersecting := true; intersectionRatio := 0.5 |}])
           eq_refl)).
Defined.

(** C1. The callback reads only the first entry of the array it is handed.
    A notification that reports the element first as out of view and then
    as in view, at fraction 0.5 with threshold 0.3, leaves the output
    [false]; so does every batch whose first entry is not intersecting,
    whatever its later entries say, and the output is then still [false]
    after any further notifications of that kind. *)
Theorem later_entries_are_not_read :
  inView (run [Notify [{| isIntersecting := false; intersectionRatio := 0 |};
                       {| isIntersecting := true;
                          intersectionRatio := 0.5 |}]]
              (mount (Some 1%nat) {| threshold := 0.3 |})) = false
  /\ (forall h entry rest,
        isIntersecting entry = false -> deliver (entry :: rest) h = h)
  /\ (forall t target batches,
        Forall (fun entries =>
                  exists entry rest, entries = entry :: rest
                                     /\ isIntersecting entry = false)
               batches ->
        inView (run (Notify <$> batches) (mount target {| threshold := t |}))
        = false).
Proof.
  split; [reflexivity|]. split.
  - intros h entry rest Hout. unfold deliver, observer_callback.
    now rewrite Hout.
  - intros t target batches Hall.
    assert (Hgen : forall h, run (Notify <$> batches) h = h).
    { induction Hall as [|entries batches (entry & rest & -> & Hout) _ IH];
        intros h; [reflexivity|].
      rewrite fmap_cons. cbn [run fold_left step].
      unfold deliver at 1, observer_callback. rewrite Hout. apply IH. }
    now rewrite Hgen.
Qed.

(** C4. The output is [false] at creation and at mount, and it is still
    [false] after any sequence of events none of which is a qualifying
    notification. *)
Theorem useInView_stays_false (t : Q) (target : option Element)
    (es : list Event) :
  Forall (fun e => qualifying e = false) es ->
  inView useInView_init = false
  /\ inView (mount target {| threshold := t |}) = false
  /\ inView (run es (mount target {| threshold := t |})) = false.
Proof.
  intros Hall. split; [reflexivity|]. split; [reflexivity|].
  assert (Hgen : forall h, inView (run es h) = inView h).
  { induction Hall as [|e es He _ IH]; intros h; simpl; [reflexivity|].
    rewrite IH. now apply step_not_qualifying. }
  rewrite Hgen. reflexivity.
Qed.

Lemma useInView_stays_false_witness :
  inView (run [Notify [{| isIntersecting := false;
                          intersectionRatio := 0.05 |}];
               Rerender true {| threshold := 0.1 |};
               Notify [{| isIntersecting := false;
                          intersectionRatio := 0 |}]]
              (mount (Some 1%nat) {| threshold := 0.1 |})) = false.
Proof.
  refine (proj2 (proj2 (useInView_stays_false 0.1 (Some 1%nat) _ _))).
  repeat constructor.
Defined.

(** The subscriptions of an instance at mount. *)
Lemma mount_registers_one el o :
  observing (mount (Some el) o) = [(0%nat, el)].
Proof. reflexivity. Qed.

Lemma mount_unset_registers_none o : observing (mount None o) = [].
Proof. reflexivity. Qed.

(** When the ref still points to the element, the cleanup removes what the
    effect registered: this is the path taken between two renders. *)
Lemma cleanup_with_ref_deregisters el o :
  observing (useInView_cleanup (mount (Some el) o)) = [].
Proof.
  unfold mount, useInView_cleanup, useInView_effect; simpl.
  unfold unobserve, observe.
  rewrite decide_False by (intros H; inversion H).
  rewrite filter_cons_False by (intros H; now apply H).
  reflexivity.
Qed.

(** While the ref stays on its element, every re-subscription replaces the
    subscription: there is exactly one at any time. *)
Lemma subscribed_mount el o : subscribed el (mount (Some el) o).
Proof. split; [reflexivity|]. now exists 0%nat. Qed.

Lemma subscribed_step el h e :
  keeps_ref e = true -> subscribed el h -> subscribed el (step h e).
Proof.
  intros He (Href & o & Ho & Hreg).
  destruct e as [entries|changed opts|r]; [| |discriminate].
  - cbn [step]. unfold deliver, observer_callback.
    destruct entries as [|entry rest]; [now split; eauto|].
    destruct (isIntersecting entry); split; eauto.
  - cbn [step]. unfold rerender. destruct changed; [|split; eauto].
    unfold useInView_effect, useInView_cleanup. rewrite Ho; simpl.
    rewrite Href, Hreg. split; [reflexivity|].
    exists (next_observer h). split; [reflexivity|].
    unfold unobserve, observe.
    rewrite filter_cons_False by (intros H; now apply H).
    rewrite filter_nil.
    now rewrite decide_False by (intros H; inversion H).
Qed.

Lemma subscribed_run el es : forall h,
  Forall (fun e => keeps_ref e = true) es -> subscribed el h ->
  subscribed el (run es h).
Proof.
  induction es as [|e es IH]; intros h Hes Hh; simpl; [assumption|].
  inversion Hes; subst. apply IH; [assumption|].
  now apply subscribed_step.
Qed.

(** C5. The cleanup that runs at unmount finds the ref already detached and
    skips [unobserve]: the registry is the same after the unmount as before
    it, so the subscription made at mount for element 7 is still there. *)
Theorem unmount_keeps_subscription :
  (forall h, observing (unmount h) = observing h)
  /\ observing (unmount (mount (Some 7%nat) {| threshold := 0.3 |}))
     = [(0%nat, 7%nat)].
Proof.
  split; [|reflexivity].
  intros h. unfold unmount, useInView_cleanup; simpl.
  destruct (effect_observer h); reflexivity.
Qed.

End UseInViewFacts.

(** ** The narrative sections *)

Module NarrativeFacts.
Import Narrative.

(** C7. The threshold a section passes to its tracker is 0.1 when the
    viewport is narrower than 768 and 0.3 otherwise. *)
Theorem NarrativeSection_threshold (innerWidth : Q) (it : CollageItem)
    (index : nat) (inView : bool) :
  let t := UseInView.threshold
             (options (NarrativeSection innerWidth it index inView)) in
  ((innerWidth < 768)%Q /\ t = 0.1%Q) \/ ((768 <= innerWidth)%Q /\ t = 0.3%Q).
Proof.
  simpl. unfold threshold_for.
  destruct (Qltb innerWidth 768) eqn:Hb.
  - left. split; [now apply Qltb_lt|reflexivity].
  - right. split; [now apply Qltb_ge|reflexivity].
Qed.

End NarrativeFacts.

(** ** The scroll hint *)

Module AppFacts.
Import App.

Lemma mounted_mount : mounted mount.
Proof. repeat split. Qed.

Lemma handleScroll_listeners w p :
  handleScroll_memo (handleScroll w p) = handleScroll_memo p
  /\ effect_deps (handleScroll w p) = effect_deps p
  /\ scroll_listeners (handleScroll w p) = scroll_listeners p.
Proof.
  unfold handleScroll.
  destruct (match w with Some y => Qltb 100 y | None => false end);
    [now repeat split|].
  destruct (match w with Some y => Qle_bool y 100 | None => false end);
    now repeat split.
Qed.

Lemma mounted_step p e : mounted p -> mounted (step p e).
Proof.
  intros (Hm & Hd & Hl). destruct e as [|y]; simpl.
  - unfold render. rewrite Hm; simpl. rewrite decide_True by assumption.
    now repeat split.
  - unfold fire_scroll. rewrite Hl. cbn [fold_left].
    destruct (handleScroll_listeners (Some y) p) as (H1 & H2 & H3).
    unfold mounted. now rewrite H1, H2, H3.
Qed.

Lemma mounted_run es : forall p, mounted p -> mounted (run es p).
Proof.
  induction es as [|e es IH]; intros p Hp; simpl; [assumption|].
  apply IH. now apply mounted_step.
Qed.

Lemma handleScroll_visible y p :
  showScrollIndicator (handleScroll (Some y) p) = true <-> (y <= 100)%Q.
Proof.
  unfold handleScroll. destruct (Qltb 100 y) eqn:Hgt; simpl.
  - apply Qltb_lt in Hgt. split; [discriminate|].
    intros Hle. exfalso. exact (Qlt_not_le _ _ Hgt Hle).
  - apply Qltb_ge in Hgt. pose proof Hgt as Hb.
    apply Qle_bool_iff in Hb. rewrite Hb. simpl. tauto.
Qed.

(** C9. From mount on, through any renders and scroll notifications, the
    window has exactly one scroll listener, the one registered at mount; the
    unmount removes it; and after a scroll notification is processed the hint
    is visible exactly when the offset is at most 100. *)
Theorem scroll_hint_listener (es : list Event) (scrollY : Q) :
  scroll_listeners mount = [0%nat]
  /\ scroll_listeners (run es mount) = [0%nat]
  /\ scroll_listeners (unmount (run es mount)) = []
  /\ (showScrollIndicator (step (run es mount) (Scroll scrollY)) = true
      <-> (scrollY <= 100)%Q).
Proof.
  destruct (mounted_run es mount mounted_mount) as (Hm & Hd & Hl).
  split; [reflexivity|]. split; [assumption|]. split.
  - unfold unmount. rewrite Hd; simpl. rewrite Hl. reflexivity.
  - cbn [step]. unfold fire_scroll. rewrite Hl. cbn [fold_left].
    apply handleScroll_visible.
Qed.

End AppFacts.

(** ** The load-failure fallback of one element *)

Module DomFacts.
Import Dom.

Lemma dispatch_error_created url a ph :
  dispatch_error (create_img url a (Fallback ph))
  = {| src := ph; img_alt := a; onerror := None;
       error_listener := Some (Fallback ph); src_writes := [ph] |}.
Proof. reflexivity. Qed.

(** The listener survives the handler: only the [onerror] property is
    cleared, and it was never set. *)
Lemma dispatch_error_keeps_listener target :
  onerror target = None ->
  error_listener (dispatch_error target) = error_listener target
  /\ onerror (dispatch_error target) = None.
Proof.
  intros Hp. unfold dispatch_error. rewrite Hp; simpl.
  destruct (error_listener target) as [[ph]|] eqn:Hl; simpl; auto.
Qed.

Lemma fail_times_writes n : forall url a ph ws,
  fail_times n {| src := url; img_alt := a; onerror := None;
                  error_listener := Some (Fallback ph); src_writes := ws |}
  = {| src := match n with 0%nat => url | S _ => ph end; img_alt := a;
       onerror := None; error_listener := Some (Fallback ph);
       src_writes := replicate n ph ++ ws |}.
Proof.
  induction n as [|n IH]; intros url a ph ws; [reflexivity|].
  simpl fail_times. unfold dispatch_error; simpl. rewrite IH.
  f_equal; [now destruct n|].
  change (ph :: ws) with ([ph] ++ ws).
  now rewrite app_assoc, <- replicate_cons_app.
Qed.

(** Were the handler installed in the [onerror] property, clearing that
    property would disarm it after the first failure. *)
Lemma property_handler_runs_once n url a ph :
  src_writes (fail_times (S n)
                {| src := url; img_alt := a; onerror := Some (Fallback ph);
                   error_listener := None; src_writes := [] |})
  = [ph].
Proof.
  simpl fail_times. unfold dispatch_error; simpl.
  induction n as [|n IH]; [reflexivity|]. exact IH.
Qed.

(** C10. An element whose image fails and whose placeholder fails as well:
    the handler runs at each failure and assigns [src] each time, so there
    are as many substitutions as failures, two after two failures. *)
Theorem fallback_runs_at_every_failure :
  src_writes (fail_times 2 (create_img "/images/skydive.png"
                              "Woman skydiving headfirst"
                              (Fallback Collage.placeholder)))
  = [Collage.placeholder; Collage.placeholder]
  /\ (forall n url a ph,
        length (src_writes (fail_times n (create_img url a (Fallback ph))))
        = n).
Proof.
  split; [reflexivity|].
  intros n url a ph. unfold create_img. rewrite fail_times_writes.
  rewrite app_nil_r. apply length_replicate.
Qed.

End DomFacts.

(** ** Reasoning about computations that draw random numbers *)

Section RandLogic.

(** [I] is what is known of the random source and [Hd] what it tells of the
    next draw; [I] must survive a draw. *)
Variable I : RandomSource -> Prop.
Variable Hd : Q -> Prop.
Hypothesis I_next : forall s, I s -> Hd (s 0%nat) /\ I (fun n => s (S n)).

Lemma spec_ret {A} (a : A) (P : A -> Prop) : P a -> spec I (ret a) P.
Proof. intros Ha s Hs. now split. Qed.

Lemma spec_bind {A B} (c : Rand A) (k : A -> Rand B) P Q :
  spec I c P -> (forall a, P a -> spec I (k a) Q) -> spec I (bind c k) Q.
Proof.
  intros Hc Hk s Hs. unfold bind.
  destruct (Hc s Hs) as [Ha Hs']. destruct (c s) as [a s']; simpl in *.
  now apply Hk.
Qed.

Lemma spec_weaken {A} (c : Rand A) (P Q : A -> Prop) :
  spec I c P -> (forall a, P a -> Q a) -> spec I c Q.
Proof. intros Hc HPQ s Hs. destruct (Hc s Hs). split; auto. Qed.

Lemma spec_Math_random : spec I Math_random Hd.
Proof. intros s Hs. now apply I_next. Qed.

Lemma spec_mapM {A B} (f : A -> Rand B) (R : A -> B -> Prop) l :
  (forall a, spec I (f a) (R a)) -> spec I (mapM f l) (Forall2 R l).
Proof.
  intros Hf. induction l as [|a l IH]; simpl.
  - apply spec_ret. constructor.
  - eapply spec_bind; [apply Hf|]. intros b Hb.
    eapply spec_bind; [apply IH|]. intros bs Hbs.
    apply spec_ret. now constructor.
Qed.

Lemma spec_mapM_index {A B} (f : nat -> A -> Rand B)
    (R : nat -> A -> B -> Prop) l :
  (forall i a, spec I (f i a) (R i a)) ->
  forall index, spec I (mapM_index f index l) (pointwise R index l).
Proof.
  intros Hf. induction l as [|a l IH]; intros index; simpl.
  - apply spec_ret. split; [reflexivity|]. intros i b Hi.
    destruct i; discriminate.
  - eapply spec_bind; [apply Hf|]. intros b Hb.
    eapply spec_bind; [apply IH|]. intros bs [Hlen Hbs].
    apply spec_ret. split; [simpl; now rewrite Hlen|].
    intros [|i] b' Hi; simpl in Hi.
    + inversion Hi; subst. exists a. rewrite Nat.add_0_r. now split.
    + destruct (Hbs i b' Hi) as (a' & Ha' & HR). exists a'.
      split; [assumption|]. now rewrite Nat.add_succ_r.
Qed.

End RandLogic.

(** The two instances in use: a source of draws in [0,1), and any source. *)
Lemma in_unit_next s :
  in_unit s ->
  (0 <= s 0%nat /\ s 0%nat < 1)%Q /\ in_unit (fun n => s (S n)).
Proof. intros Hs. split; [apply Hs|]. intros n. apply Hs. Qed.

Lemma any_source_next (s : RandomSource) :
  (fun _ : RandomSource => True) s ->
  (fun _ : Q => True) (s 0%nat)
  /\ (fun _ : RandomSource => True) (fun n => s (S n)).
Proof. now split. Qed.

(** ** The collage generator *)

Module CollageFacts.
Import Collage CollageSpec.

Lemma floor_range (q : Q) (n : Z) :
  (0 <= q)%Q -> (q < inject_Z n)%Q -> (0 <= Math_floor q < n)%Z.
Proof.
  intros H0 Hn. unfold Math_floor. split.
  - change 0%Z with (Qfloor 0). now apply Qfloor_resp_le.
  - rewrite Zlt_Qlt. eapply Qle_lt_trans; [apply Qfloor_le|assumption].
Qed.


Lemma swap_Permutation {A} (i j : nat) (arr : list A) : swap i j arr ≡ₚ arr.
Proof.
  unfold swap. destruct (arr !! i) as [ai|] eqn:Hi; [|reflexivity].
  destruct (arr !! j) as [aj|] eqn:Hj; [|reflexivity].
  now apply Permutation_insert_swap.
Qed.


Section WithSource.

Variable I : RandomSource -> Prop.
Variable Hd : Q -> Prop.
Hypothesis I_next : forall s, I s -> Hd (s 0%nat) /\ I (fun n => s (S n)).
Variable numToString : Q -> string.

Lemma spec_shuffle_from {A} (i : nat) : forall arr : list A,
  spec I (shuffle_from i arr) (fun out => out ≡ₚ arr).
Proof.
  induction i as [|i IH]; intros arr; simpl.
  - apply spec_ret. reflexivity.
  - eapply spec_bind; [apply (spec_Math_random I Hd I_next)|].
    intros r _. eapply spec_weaken; [apply IH|].
    intros out Hout. simpl in Hout. rewrite Hout. apply swap_Permutation.
Qed.

Lemma spec_shuffle {A} (arr : list A) :
  spec I (shuffle arr) (fun out => out ≡ₚ arr).
Proof. apply spec_shuffle_from. Qed.

Lemma spec_tag i im :
  spec I (tag numToString i im) (tagged numToString (i, im)).
Proof.
  unfold tag. eapply spec_bind; [apply (spec_Math_random I Hd I_next)|].
  intros r _. apply spec_ret. split; [reflexivity|]. now exists r.
Qed.

Lemma rows_tagged (idxs : list nat) (images : list CollageItem)
    (rows : list (list DenseItem)) :
  Forall2 (fun i row =>
             Forall2 (fun im d => tagged numToString (i, im) d) images row)
          idxs rows ->
  Forall2 (tagged numToString)
          (concat ((fun i => (fun im => (i, im)) <$> images) <$> idxs))
          (concat rows).
Proof.
  induction 1 as [|i row idxs rows Hrow _ IH]; simpl; [constructor|].
  apply Forall2_app; [|assumption].
  apply Forall2_fmap_l. exact Hrow.
Qed.

Lemma spec_expand k images :
  spec I (expand numToString k images)
       (Forall2 (tagged numToString) (tags k images)).
Proof.
  unfold expand, Array_from.
  eapply spec_bind.
  - apply (spec_mapM I (fun i => mapM (tag numToString i) images)
             (fun i row => Forall2 (fun im d => tagged numToString (i, im) d)
                             images row)).
    intros i. apply spec_mapM. intros im. apply spec_tag.
  - intros rows Hrows. apply spec_ret. now apply rows_tagged.
Qed.

Lemma spec_place index d :
  spec I (place index d) (placed Hd index d).
Proof.
  unfold place.
  do 6 (eapply spec_bind; [apply (spec_Math_random I Hd I_next)|];
        intros ? ?).
  apply spec_ret. unfold placed; simpl.
  repeat (split; [reflexivity|]).
  eexists _, _, _, _, _, _. repeat split; eassumption.
Qed.

Lemma spec_generate k images :
  spec I (generate numToString k images)
       (generated numToString Hd k images).
Proof.
  unfold generate.
  eapply spec_bind; [apply spec_expand|]. intros dense Hdense.
  eapply spec_bind; [apply spec_shuffle|]. intros shuffled Hperm.
  eapply spec_weaken;
    [apply (spec_mapM_index I place (placed Hd)); intros; apply spec_place|].
  intros out Hout. unfold generated. now exists dense, shuffled.
Qed.

End WithSource.

Lemma placed_in_ranges index d p : placed unit_draw index d p -> in_ranges p.
Proof.
  intros (_ & _ & _ & _ & _ & rx & ry & rrot & rsize & rop & rz & Hdraws
          & Hx & Hy & Hrot & Hsize & Hop & Hz).
  destruct Hdraws as ([? ?] & [? ?] & [? ?] & [? ?] & [? ?] & [Hz0 Hz1]).
  unfold in_ranges. rewrite Hx, Hy, Hrot, Hsize, Hop, Hz.
  repeat split; try lra.
  - apply (floor_range (rz * 10) 10); [lra|].
    change (inject_Z 10) with 10%Q. lra.
  - assert (Math_floor (rz * 10) < 10)%Z; [|lia].
    apply (floor_range (rz * 10) 10); [lra|].
    change (inject_Z 10) with 10%Q. lra.
Qed.

(** What every run yields from a source of draws in [0,1), and from any
    source at all. *)
Lemma generate_unit numToString k images s :
  in_unit s ->
  generated numToString unit_draw k images
    (fst (generate numToString k images s)).
Proof.
  intros Hs.
  exact (proj1 (spec_generate in_unit unit_draw in_unit_next numToString
                  k images s Hs)).
Qed.

Lemma generate_any numToString k images s :
  generated numToString (fun _ => True) k images
    (fst (generate numToString k images s)).
Proof.
  exact (proj1 (spec_generate (fun _ => True) (fun _ => True)
                  any_source_next numToString k images s Logic.I)).
Qed.

Lemma generated_lookup numToString Hd k images out i p :
  generated numToString Hd k images out -> out !! i = Some p ->
  exists d, placed Hd i d p.
Proof.
  intros (dense & shuffled & _ & _ & _ & Hpt) Hi.
  destruct (Hpt i p Hi) as (d & _ & Hpl). now exists d.
Qed.

(** C3. Every placement generated from draws in [0,1) has its position in
    [0,100], its rotation in [-30,30], its size in [30,80], its opacity in
    [0.6,1] and an integer stacking order in [0,9], for every input list and
    every duplication factor, the page's factor 4 included. *)
Theorem placements_in_ranges (numToString : Q -> string) (k : nat)
    (images : list CollageItem) (s : RandomSource) :
  in_unit s ->
  Forall in_ranges (fst (generate numToString k images s))
  /\ Forall in_ranges (fst (DynamicCollageBackground numToString images s)).
Proof.
  intros Hs.
  assert (Hall : forall k', Forall in_ranges
                              (fst (generate numToString k' images s))).
  { intros k'. apply Forall_lookup_2. intros i p Hi.
    destruct (generated_lookup _ _ _ _ _ _ _
                (generate_unit numToString k' images s Hs) Hi) as [d Hpl].
    now apply (placed_in_ranges i d). }
  split; [apply Hall|apply (Hall duplicationFactor)].
Qed.

Lemma sample_source_in_unit : in_unit sample_source.
Proof.
  intros n. unfold sample_source, Qle, Qlt; simpl.
  pose proof (Nat.mod_upper_bound n 7). lia.
Qed.

Lemma placements_in_ranges_witness :
  Forall in_ranges
    (fst (DynamicCollageBackground sample_numToString sample_images
            sample_source)).
Proof.
  exact (proj2 (placements_in_ranges sample_numToString 4 sample_images
                  sample_source sample_source_in_unit)).
Defined.

(** C8. The entry at position [i] of the shuffled list gets the delay
    [1.5 * i] and the duration [30 + 2 * i]; both grow strictly with the
    position, so two different positions never share them. *)
Theorem placement_timing (numToString : Q -> string)
    (images : list CollageItem) (s : RandomSource) (i j : nat)
    (p q : Placement) :
  fst (DynamicCollageBackground numToString images s) !! i = Some p ->
  fst (DynamicCollageBackground numToString images s) !! j = Some q ->
  (animationDelay p == 1.5 * inject_Z (Z.of_nat i))%Q
  /\ (animationDuration p == 30 + 2 * inject_Z (Z.of_nat i))%Q
  /\ ((i < j)%nat ->
      (animationDelay p < animationDelay q)%Q
      /\ (animationDuration p < animationDuration q)%Q)
  /\ (i <> j ->
      ~ ((animationDelay p == animationDelay q)%Q
         /\ (animationDuration p == animationDuration q)%Q)).
Proof.
  intros Hi Hj. unfold DynamicCollageBackground in *.
  destruct (generated_lookup _ _ _ _ _ _ _
              (generate_any numToString _ images s) Hi)
    as (d & _ & _ & Hdur & Hdel & _).
  destruct (generated_lookup _ _ _ _ _ _ _
              (generate_any numToString _ images s) Hj)
    as (d' & _ & _ & Hdur' & Hdel' & _).
  rewrite Hdur, Hdel, Hdur', Hdel'.
  assert (Hlt : forall a b : nat, (a < b)%nat ->
                  (inject_Z (Z.of_nat a) < inject_Z (Z.of_nat b))%Q).
  { intros a b Hab. rewrite <- Zlt_Qlt. lia. }
  split; [lra|]. split; [lra|]. split.
  - intros Hij. specialize (Hlt i j Hij). split; lra.
  - intros Hne [Hd1 _].
    destruct (Nat.lt_total i j) as [Hij|[Hij|Hij]]; [|contradiction|].
    + specialize (Hlt i j Hij). lra.
    + specialize (Hlt j i Hij). lra.
Qed.

Lemma placement_timing_witness :
  exists p q,
    fst (DynamicCollageBackground sample_numToString sample_images
           sample_source) !! 1%nat = Some p
    /\ fst (DynamicCollageBackground sample_numToString sample_images
              sample_source) !! 3%nat = Some q
    /\ (animationDelay p == 1.5 * inject_Z (Z.of_nat 1))%Q
    /\ (animationDuration p < animationDuration q)%Q.
Proof.
  eexists _, _. split; [reflexivity|]. split; [reflexivity|].
  pose proof (placement_timing sample_numToString sample_images
                sample_source 1 3 _ _ eq_refl eq_refl) as (H1 & _ & H3 & _).
  split; [exact H1|]. apply H3. lia.
Defined.

End CollageFacts.

(** ** Load failures on the rendered page *)

Module FallbackFacts.
Import CollageSpec CollageFacts.

Lemma fmap_alter_same {A B} (g : A -> B) (f : A -> A) (l : list A) :
  (forall a, g (f a) = g a) -> forall i, g <$> alter f i l = g <$> l.
Proof.
  intros Hgf. induction l as [|a l IH]; intros [|i]; simpl; try reflexivity.
  - now rewrite Hgf.
  - f_equal. apply IH.
Qed.

Lemma collage_image_error numToString images s i :
  let ps := fst (Collage.DynamicCollageBackground numToString images s) in
  (i < length ps)%nat ->
  length (Collage.image_error i ps) = length ps
  /\ Collage.style_of <$> Collage.image_error i ps = Collage.style_of <$> ps
  /\ (fun p => Dom.src (Collage.element p)) <$> Collage.image_error i ps !! i
     = Some Collage.placeholder
  /\ (forall j, j <> i -> Collage.image_error i ps !! j = ps !! j).
Proof.
  intros ps Hi. unfold Collage.image_error.
  split; [apply length_alter|]. split; [now apply fmap_alter_same|]. split.
  - rewrite list_lookup_alter_eq.
    destruct (lookup_lt_is_Some_2 ps i Hi) as [p Hp]. rewrite Hp; simpl.
    destruct (generated_lookup _ _ _ _ _ _ _
                (generate_any numToString _ images s) Hp)
      as (d & _ & _ & _ & _ & Hel & _).
    now rewrite Hel.
  - intros j Hj. now apply list_lookup_alter_ne.
Qed.

Lemma narrative_image_error innerWidth trackers i :
  let vs := Narrative.sections innerWidth trackers in
  (i < length vs)%nat ->
  length (Narrative.image_error i vs) = length vs
  /\ (fun v => Dom.src (Narrative.image v))
       <$> Narrative.image_error i vs !! i
     = Some Narrative.placeholder
  /\ (fun v => (Narrative.options v, Narrative.isReversed v,
                Narrative.mobileHeightClass v, Narrative.revealed v))
       <$> Narrative.image_error i vs
     = (fun v => (Narrative.options v, Narrative.isReversed v,
                  Narrative.mobileHeightClass v, Narrative.revealed v))
         <$> vs
  /\ (forall j, j <> i -> Narrative.image_error i vs !! j = vs !! j).
Proof.
  intros vs Hi. unfold Narrative.image_error.
  split; [apply length_alter|]. split; [|split].
  - rewrite list_lookup_alter_eq.
    destruct (lookup_lt_is_Some_2 vs i Hi) as [v Hv]. rewrite Hv; simpl.
    unfold vs, Narrative.sections in Hv. rewrite list_lookup_imap in Hv.
    destruct (collageData !! i) as [it|]; [|discriminate].
    simpl in Hv. inversion Hv; subst v. reflexivity.
  - now apply fmap_alter_same.
  - intros j Hj. now apply list_lookup_alter_ne.
Qed.

(** C6. When the image of a collage placement or of a narrative section
    fails to load, the [src] of that element becomes the component's
    placeholder; the list keeps its length, every style and layout value is
    what it was (nothing is generated again), and the other instances are
    untouched. *)
Theorem image_fallback (numToString : Q -> string)
    (images : list CollageItem) (s : RandomSource) (innerWidth : Q)
    (trackers : list bool) (i i' : nat) :
  let ps := fst (Collage.DynamicCollageBackground numToString images s) in
  let vs := Narrative.sections innerWidth trackers in
  (i < length ps)%nat -> (i' < length vs)%nat ->
  (length (Collage.image_error i ps) = length ps
   /\ Collage.style_of <$> Collage.image_error i ps = Collage.style_of <$> ps
   /\ (fun p => Dom.src (Collage.element p)) <$> Collage.image_error i ps !! i
      = Some Collage.placeholder
   /\ (forall j, j <> i -> Collage.image_error i ps !! j = ps !! j))
  /\ (length (Narrative.image_error i' vs) = length vs
      /\ (fun v => Dom.src (Narrative.image v))
           <$> Narrative.image_error i' vs !! i'
         = Some Narrative.placeholder
      /\ (forall j, j <> i' -> Narrative.image_error i' vs !! j = vs !! j)).
Proof.
  intros ps vs Hi Hi'. split.
  - now apply collage_image_error.
  - destruct (narrative_image_error innerWidth trackers i' Hi')
      as (Hlen & Hsrc & _ & Hothers).
    auto.
Qed.

Lemma image_fallback_witness :
  (fun p => Dom.src (Collage.element p))
    <$> Collage.image_error 2
          (fst (Collage.DynamicCollageBackground sample_numToString
                  sample_images sample_source)) !! 2%nat
  = Some Collage.placeholder
  /\ (fun v => Dom.src (Narrative.image v))
       <$> Narrative.image_error 5 (Narrative.sections 1024 []) !! 5%nat
     = Some Narrative.placeholder.
Proof.
  assert (H1 : (2 < length (fst (Collage.DynamicCollageBackground
                                   sample_numToString sample_images
                                   sample_source)))%nat).
  { vm_compute. lia. }
  assert (H2 : (5 < length (Narrative.sections 1024 []))%nat).
  { vm_compute. lia. }
  destruct (image_fallback sample_numToString sample_images sample_source
              1024 [] 2 5 H1 H2) as ((_ & _ & Hc & _) & (_ & Hn & _)).
  split; assumption.
Defined.

End FallbackFacts.

(** ** Instance keys as strings *)

Module KeyFacts.

Lemma chars_app (a b : string) : chars (a +:+ b) = chars a ++ chars b.
Proof. induction a as [|c a IH]; simpl; [reflexivity|]. now rewrite IH. Qed.

Lemma chars_inj (a b : string) : chars a = chars b -> a = b.
Proof.
  intros H. rewrite <- (string_of_list_ascii_of_string a),
    <- (string_of_list_ascii_of_string b). now rewrite H.
Qed.

(** Where a dash stands in the text of a number, an [e] stands before it. *)
Lemma dash_only_after_e_split (s : string) : forall after_e u v,
  dash_only_after_e after_e s = true ->
  chars s = u ++ "-"%char :: v ->
  (u = [] /\ after_e = true) \/ exists u', u = u' ++ ["e"%char].
Proof.
  induction s as [|c s IH]; intros after_e u v Hok Hsplit; simpl in *.
  - destruct u; discriminate.
  - destruct u as [|c' u].
    + inversion Hsplit; subst c. simpl in Hok.
      apply andb_true_iff in Hok as [-> _]. now left.
    + inversion Hsplit; subst c'. right.
      destruct (Ascii.eqb c "-") eqn:Hc.
      * apply andb_true_iff in Hok as [_ Hok].
        destruct (IH _ _ _ Hok H1) as [[_ ?]|[u' ->]]; [discriminate|].
        now exists (c :: u').
      * destruct (IH _ _ _ Hok H1) as [[-> He]|[u' ->]].
        -- apply Ascii.eqb_eq in He. subst c. now exists [].
        -- now exists (c :: u').
Qed.

(** The text of a number is the part of a key after the last dash that no
    [e] precedes. *)
Lemma key_suffix (p1 p2 s1 s2 : list ascii) (c1 c2 : ascii) (t1 t2 : string) :
  c1 <> "e"%char -> c2 <> "e"%char ->
  dash_only_after_e false t1 = true -> dash_only_after_e false t2 = true ->
  s1 = chars t1 -> s2 = chars t2 ->
  (p1 ++ [c1]) ++ "-"%char :: s1 = (p2 ++ [c2]) ++ "-"%char :: s2 ->
  p1 ++ [c1] = p2 ++ [c2] /\ s1 = s2.
Proof.
  intros Hc1 Hc2 Ht1 Ht2 -> -> Heq.
  apply app_eq_inv in Heq as [(k & Hp & Hs)|(k & Hp & Hs)].
  - destruct k as [|a k]; simpl in Hs.
    + inversion Hs. rewrite app_nil_r in Hp. now split.
    + inversion Hs; subst a.
      destruct (dash_only_after_e_split t2 false k (chars t1) Ht2 H1)
        as [[_ ?]|[u' ->]]; [discriminate|].
      exfalso. apply Hc1.
      assert (Hlast : p1 ++ [c1]
                      = ((p2 ++ [c2]) ++ "-"%char :: u') ++ ["e"%char]).
      { rewrite Hp.
        now rewrite <- (app_assoc (p2 ++ [c2]) ("-"%char :: u') ["e"%char]). }
      now apply app_inj_tail in Hlast as [_ ->].
  - destruct k as [|a k]; simpl in Hs.
    + inversion Hs. rewrite app_nil_r in Hp. now split.
    + inversion Hs; subst a.
      destruct (dash_only_after_e_split t1 false k (chars t2) Ht1 H1)
        as [[_ ?]|[u' ->]]; [discriminate|].
      exfalso. apply Hc2.
      assert (Hlast : p2 ++ [c2]
                      = ((p1 ++ [c1]) ++ "-"%char :: u') ++ ["e"%char]).
      { rewrite Hp.
        now rewrite <- (app_assoc (p1 ++ [c1]) ("-"%char :: u') ["e"%char]). }
      now apply app_inj_tail in Hlast as [_ ->].
Qed.

(** The decimal text of a repetition index: digits, at least one. *)
Lemma pretty_N_char_digit x : is_digit (pretty_N_char x) = true.
Proof. unfold pretty_N_char. repeat case_match; reflexivity. Qed.

Lemma pretty_N_go_digits (x : N) : forall s,
  exists t, chars (pretty_N_go x s) = t ++ chars s
            /\ Forall (fun c => is_digit c = true) t
            /\ ((0 < x)%N -> t <> []).
Proof.
  induction (N.lt_wf_0 x) as [x _ IH]; intros s.
  assert (x = 0 \/ 0 < x)%N as [->|Hx] by lia.
  - exists []. rewrite pretty_N_go_0. split; [reflexivity|].
    split; [constructor|lia].
  - rewrite pretty_N_go_step by assumption.
    destruct (IH (x `div` 10)%N (N.div_lt x 10 Hx eq_refl)
                (String (pretty_N_char (x `mod` 10)) s))
      as (t & Ht & Hdig & _).
    exists (t ++ [pretty_N_char (x `mod` 10)]).
    split; [rewrite Ht; simpl; now rewrite <- app_assoc|].
    split.
    + apply Forall_app. split; [assumption|].
      constructor; [apply pretty_N_char_digit|constructor].
    + intros _ Hnil. now destruct t.
Qed.

Lemma pretty_nat_digits (i : nat) :
  exists t c, chars (pretty i) = t ++ [c]
              /\ Forall (fun c => is_digit c = true) (t ++ [c]).
Proof.
  unfold pretty, pretty_nat, pretty, pretty_N.
  destruct (decide (N.of_nat i = 0%N)) as [_|Hne].
  - exists [], "0"%char. split; [reflexivity|]. now repeat constructor.
  - destruct (pretty_N_go_digits (N.of_nat i) "") as (t & Ht & Hdig & Hnn).
    simpl in Ht. rewrite app_nil_r in Ht.
    destruct (exists_last (Hnn ltac:(lia))) as (t' & c & ->).
    exists t', c. now split.
Qed.

Lemma digit_not_e c : is_digit c = true -> c <> "e"%char.
Proof. intros H ->. discriminate. Qed.

(** Two keys are equal only for the same file name and the same repetition
    index. *)
Lemma make_key_inj (numToString : Q -> string) (f1 f2 : string)
    (i1 i2 : nat) (r1 r2 : Q) :
  number_text numToString ->
  Collage.make_key numToString f1 i1 r1 = Collage.make_key numToString f2 i2 r2 ->
  f1 = f2 /\ i1 = i2.
Proof.
  intros Hnum Heq. apply (f_equal chars) in Heq.
  unfold Collage.make_key in Heq. rewrite !chars_app in Heq. simpl in Heq.
  destruct (pretty_nat_digits i1) as (t1 & c1 & Hp1 & Hd1).
  destruct (pretty_nat_digits i2) as (t2 & c2 & Hp2 & Hd2).
  rewrite Hp1, Hp2 in Heq.
  assert (Heq' : ((chars f1 ++ "-"%char :: t1) ++ [c1])
                   ++ "-"%char :: chars (numToString r1)
                 = ((chars f2 ++ "-"%char :: t2) ++ [c2])
                   ++ "-"%char :: chars (numToString r2)).
  { rewrite <- !app_assoc. simpl. rewrite <- !app_assoc in Heq. exact Heq. }
  apply Forall_app in Hd1 as Hd1'. destruct Hd1' as [_ Hc1].
  apply Forall_app in Hd2 as Hd2'. destruct Hd2' as [_ Hc2].
  apply Forall_inv in Hc1, Hc2.
  apply (key_suffix _ _ _ _ _ _ (numToString r1) (numToString r2)) in Heq'
    as [Hpre _]; auto using digit_not_e.
  rewrite <- !app_assoc in Hpre. simpl in Hpre.
  apply not_elem_of_app_cons_inv_r in Hpre as (Hf & _ & Hi).
  - split; [now apply chars_inj|].
    apply (inj pretty). apply chars_inj. now rewrite Hp1, Hp2.
  - intros Hin. rewrite Forall_forall in Hd2. now apply Hd2 in Hin.
  - intros Hin. rewrite Forall_forall in Hd1. now apply Hd1 in Hin.
Qed.

End KeyFacts.

(** ** The entries of the collage *)

Module CollageEntries.
Import Collage CollageSpec CollageFacts.

Lemma pointwise_fmap {A B C} (R : nat -> A -> B -> Prop) (g : B -> C)
    (h : A -> C) (l : list A) (out : list B) :
  pointwise R 0 l out -> (forall i a b, R i a b -> g b = h a) ->
  g <$> out = h <$> l.
Proof.
  intros [Hlen Hpt] Hgh. apply list_eq. intros i.
  rewrite !list_lookup_fmap. destruct (out !! i) as [b|] eqn:Hb; simpl.
  - destruct (Hpt i b Hb) as (a & -> & HR). simpl. f_equal.
    exact (Hgh _ _ _ HR).
  - apply lookup_ge_None in Hb. rewrite Hlen in Hb.
    apply lookup_ge_None in Hb. now rewrite Hb.
Qed.

Lemma filter_fmap_length {A B} (g : A -> B) (P : B -> Prop)
    `{!forall b, Decision (P b)} (l : list A) :
  length (filter (fun a => P (g a)) l) = length (filter P (g <$> l)).
Proof.
  induction l as [|a l IH]; [reflexivity|].
  rewrite fmap_cons, !filter_cons.
  destruct (decide (P (g a))); simpl; now rewrite IH.
Qed.

Section Tags.

Variable images : list CollageItem.

Lemma row_sources (i : nat) :
  snd <$> ((fun im => (i, im)) <$> images) = images.
Proof.
  rewrite <- list_fmap_compose. induction images as [|im l IH];
    [reflexivity|]. simpl. f_equal. exact IH.
Qed.

Lemma rows_count (P : CollageItem -> Prop) `{!forall im, Decision (P im)}
    (idxs : list nat) :
  length (filter P (snd <$> concat ((fun i => (fun im => (i, im)) <$> images)
                                      <$> idxs)))
  = (length idxs * length (filter P images))%nat.
Proof.
  induction idxs as [|i idxs IH]; [reflexivity|].
  rewrite fmap_cons. cbn [concat length].
  rewrite fmap_app, filter_app, length_app, IH.
  now rewrite (row_sources i).
Qed.

Lemma rows_length (idxs : list nat) :
  length (concat ((fun i => (fun im => (i, im)) <$> images) <$> idxs))
  = (length idxs * length images)%nat.
Proof.
  induction idxs as [|i idxs IH]; [reflexivity|].
  rewrite fmap_cons. cbn [concat length].
  now rewrite length_app, IH, length_fmap.
Qed.

Lemma tags_count (P : CollageItem -> Prop) `{!forall im, Decision (P im)} k :
  length (filter P (snd <$> tags k images))
  = (k * length (filter P images))%nat.
Proof. unfold tags. now rewrite rows_count, length_seq. Qed.

Lemma tags_length k : length (tags k images) = (k * length images)%nat.
Proof. unfold tags. now rewrite rows_length, length_seq. Qed.

Lemma rows_names_NoDup (idxs : list nat) :
  NoDup ((fun im => filename (item im)) <$> images) -> NoDup idxs ->
  NoDup (name_of <$> concat ((fun i => (fun im => (i, im)) <$> images)
                               <$> idxs)).
Proof.
  intros Hnames Hidxs. induction Hidxs as [|i idxs Hi Hidxs IH];
    [constructor|].
  rewrite fmap_cons. cbn [concat].
  rewrite fmap_app. apply NoDup_app. split; [|split].
  - rewrite <- list_fmap_compose.
    assert (Hrow : name_of ∘ (fun im => (i, im)) <$> images
                   = pair i <$> ((fun im => filename (item im)) <$> images)).
    { now rewrite <- list_fmap_compose. }
    rewrite Hrow. apply NoDup_fmap_2; [|assumption].
    intros a b Hab. now inversion Hab.
  - intros [j name] Hin Hin'.
    apply list_elem_of_fmap in Hin as ([j1 im1] & Heq1 & Hin1).
    apply list_elem_of_fmap in Hin1 as (im1' & Heq1' & _).
    inversion Heq1'; subst. inversion Heq1; subst.
    apply list_elem_of_fmap in Hin' as ([j2 im2] & Heq2 & Hin2).
    inversion Heq2; subst.
    apply list_elem_of_In, in_concat in Hin2 as (row & Hrow & Hin2).
    apply list_elem_of_In, list_elem_of_fmap in Hrow as (j & -> & Hj).
    apply list_elem_of_In, list_elem_of_fmap in Hin2 as (im & Heq & _).
    inversion Heq; subst. now apply Hi.
  - exact IH.
Qed.

Lemma tags_names_NoDup k :
  NoDup ((fun im => filename (item im)) <$> images) ->
  NoDup (name_of <$> tags k images).
Proof. intros H. apply rows_names_NoDup; [assumption|apply NoDup_seq]. Qed.

End Tags.

Section Dense.

Variable numToString : Q -> string.
Hypothesis Hnum : number_text numToString.

Lemma tagged_sources ts dense :
  Forall2 (tagged numToString) ts dense -> img <$> dense = snd <$> ts.
Proof.
  induction 1 as [|t d ts dense [Himg _] _ IH]; [reflexivity|].
  now rewrite !fmap_cons, Himg, IH.
Qed.

Lemma tagged_keys_NoDup ts dense :
  Forall2 (tagged numToString) ts dense ->
  NoDup (name_of <$> ts) ->
  NoDup (uniqueKey <$> dense).
Proof.
  induction 1 as [|t d ts dense [_ [r Hkey]] Hrest IH]; intros Hnd;
    [constructor|].
  rewrite fmap_cons in Hnd. apply NoDup_cons in Hnd as [Hnotin Hnd].
  rewrite fmap_cons. apply NoDup_cons. split; [|now apply IH].
  intros Hin. apply Hnotin.
  apply list_elem_of_fmap in Hin as (d' & Hsame & Hd').
  apply list_elem_of_lookup in Hd' as [n Hn].
  destruct (Forall2_lookup_r _ _ _ _ _ Hrest Hn) as (t' & Ht' & _ & r' & Hkey').
  rewrite Hkey, Hkey' in Hsame.
  apply KeyFacts.make_key_inj in Hsame as [Hf Hi]; [|assumption].
  apply list_elem_of_fmap. exists t'. split.
  - unfold name_of. now rewrite Hf, Hi.
  - apply list_elem_of_lookup. now exists n.
Qed.

End Dense.

Lemma filter_eq_NoDup {A} `{EqDecision A} (l : list A) (a : A) :
  NoDup l -> a ∈ l -> length (filter (fun b => b = a) l) = 1%nat.
Proof.
  induction 1 as [|b l Hb Hl IH]; intros Ha; [now apply elem_of_nil in Ha|].
  rewrite filter_cons. destruct (decide (b = a)) as [->|Hne].
  - assert (Hnone : filter (fun b => b = a) l = []).
    { destruct (filter (fun b => b = a) l) as [|c rest] eqn:E;
        [reflexivity|].
      assert (Hc : c ∈ filter (fun b => b = a) l) by (rewrite E; left).
      apply list_elem_of_filter in Hc as [-> Hin]. contradiction. }
    now rewrite Hnone.
  - apply elem_of_cons in Ha as [->|Ha]; [contradiction|]. now apply IH.
Qed.

(** Length, keys and sources of what the generator yields. *)
Lemma generated_entries numToString Hd k images out :
  number_text numToString ->
  NoDup ((fun im => filename (item im)) <$> images) ->
  generated numToString Hd k images out ->
  length out = (k * length images)%nat
  /\ NoDup (key <$> out)
  /\ (forall (P : CollageItem -> Prop) `{!forall im, Decision (P im)},
        length (filter (fun p => P (img (sourceImage p))) out)
        = (k * length (filter P images))%nat).
Proof.
  intros Hnum Hnames (dense & shuffled & Htag & Hperm & Hpt).
  assert (Hsrc : sourceImage <$> out = shuffled).
  { rewrite <- (list_fmap_id shuffled).
    apply (pointwise_fmap (placed Hd)); [assumption|].
    now intros i d p (Hs & _). }
  assert (Hkeys : key <$> out = uniqueKey <$> shuffled).
  { apply (pointwise_fmap (placed Hd)); [assumption|].
    now intros i d p (_ & Hk & _). }
  split; [|split].
  - destruct Hpt as [-> _]. rewrite Hperm.
    rewrite <- (Forall2_length _ _ _ Htag). apply tags_length.
  - rewrite Hkeys, Hperm.
    apply (tagged_keys_NoDup numToString Hnum (tags k images));
      [assumption|].
    now apply tags_names_NoDup.
  - intros P HP.
    rewrite (filter_fmap_length (fun p => img (sourceImage p)) P).
    rewrite (list_fmap_compose sourceImage img), Hsrc, Hperm.
    rewrite (tagged_sources numToString _ _ Htag).
    apply tags_count.
Qed.

(** C2. With pairwise distinct file names, the page's generator (duplication
    factor 4) yields four placements per input record and no more, all with
    different keys; for the two records [a.png] and [b.png] that is eight
    placements, four sourced from each. *)
Theorem collage_entries (numToString : Q -> string)
    (images : list CollageItem) (s : RandomSource) :
  number_text numToString -> in_unit s ->
  NoDup ((fun im => filename (item im)) <$> images) ->
  let out := fst (DynamicCollageBackground numToString images s) in
  length out = (length images * 4)%nat
  /\ NoDup (key <$> out)
  /\ (forall im, im ∈ images ->
        length (filter (fun p => img (sourceImage p) = im) out) = 4%nat)
  /\ (forall a b, images = [a; b] ->
        filename (item a) = "a.png" -> filename (item b) = "b.png" ->
        length out = 8%nat
        /\ length (filter (fun p => filename (item (img (sourceImage p)))
                                    = "a.png") out) = 4%nat
        /\ length (filter (fun p => filename (item (img (sourceImage p)))
                                    = "b.png") out) = 4%nat).
Proof.
  intros Hnum Hs Hnames out.
  destruct (generated_entries numToString unit_draw duplicationFactor images
              out Hnum Hnames (generate_unit numToString _ images s Hs))
    as (Hlen & Hkeys & Hcount).
  split; [rewrite Hlen; unfold duplicationFactor; lia|].
  split; [assumption|]. split.
  - intros im Him.
    etransitivity; [exact (Hcount (fun b => b = im) _)|].
    rewrite filter_eq_NoDup; [reflexivity| |assumption].
    now apply NoDup_fmap_1 in Hnames.
  - intros a b Himages Ha Hb. split; [rewrite Hlen, Himages; reflexivity|].
    split.
    + etransitivity;
        [exact (Hcount (fun im => filename (item im) = "a.png") _)|].
      rewrite Himages, filter_cons_True by assumption.
      rewrite filter_cons_False by (rewrite Hb; discriminate).
      reflexivity.
    + etransitivity;
        [exact (Hcount (fun im => filename (item im) = "b.png") _)|].
      rewrite Himages, filter_cons_False by (rewrite Ha; discriminate).
      rewrite filter_cons_True by assumption.
      reflexivity.
Qed.

Lemma sample_numToString_text : number_text sample_numToString.
Proof.
  intros r. unfold sample_numToString.
  destruct (Qeq_bool r 0); [reflexivity|].
  destruct (Qle_bool (1 # 2) r); reflexivity.
Qed.

Lemma collage_entries_witness :
  length (fst (DynamicCollageBackground sample_numToString sample_images
                 sample_source)) = 8%nat
  /\ NoDup (key <$> fst (DynamicCollageBackground sample_numToString
                           sample_images sample_source)).
Proof.
  assert (Hnames : NoDup ((fun im => filename (item im)) <$> sample_images)).
  { apply (bool_decide_unpack _). vm_compute. exact Logic.I. }
  destruct (collage_entries sample_numToString sample_images sample_source
              sample_numToString_text sample_source_in_unit Hnames)
    as (Hlen & Hkeys & _).
  split; [exact Hlen|exact Hkeys].
Defined.

(** The page's own images have pairwise distinct file names, so its collage
    has 24 entries with 24 different keys. *)
Lemma collageData_names :
  NoDup ((fun im => filename (item im)) <$> collageData).
Proof. apply (bool_decide_unpack _). vm_compute. exact Logic.I. Qed.

Lemma page_collage_entries numToString s :
  number_text numToString -> in_unit s ->
  length (fst (DynamicCollageBackground numToString collageData s)) = 24%nat
  /\ NoDup (key <$> fst (DynamicCollageBackground numToString collageData s)).
Proof.
  intros Hnum Hs.
  destruct (generated_entries numToString unit_draw duplicationFactor
              collageData _ Hnum collageData_names
              (generate_unit numToString _ collageData s Hs))
    as (Hlen & Hkeys & _).
  split; [exact Hlen|exact Hkeys].
Qed.

End CollageEntries.

(** * Further properties of the page *)

(** ** The tracker over whole traces *)

Module TrackerTraces.
Import UseInView UseInViewFacts.

(** X1. The output after a trace is [true] exactly when the trace holds a
    notification whose first entry reports the element as intersecting;
    further entries of a delivered batch, empty batches, re-subscriptions
    and ref changes play no part. *)
Theorem inView_exactly_when_qualified (t : Q) (target : option Element)
    (es : list Event) :
  inView (run es (mount target {| threshold := t |}))
  = existsb qualifying es.
Proof.
  assert (Hgen : forall h,
            inView (run es h) = inView h || existsb qualifying es).
  { induction es as [|e es IH]; intros h; simpl.
    - now rewrite orb_false_r.
    - rewrite IH. destruct (qualifying e) eqn:Hq.
      + rewrite (step_qualifying h e Hq). simpl. now rewrite orb_true_r.
      + now rewrite (step_not_qualifying h e Hq). }
  rewrite Hgen. reflexivity.
Qed.

(** X2. While the ref stays on its element, any history of notifications
    and re-subscriptions leaves exactly one subscription, held by the
    observer of the latest effect run, and a cleanup run at that point
    removes it. *)
Theorem resubscription_keeps_one (el : Element) (o : ObserverOptions)
    (es : list Event) :
  Forall (fun e => keeps_ref e = true) es ->
  (exists ob, effect_observer (run es (mount (Some el) o)) = Some ob
              /\ observing (run es (mount (Some el) o)) = [(ob, el)])
  /\ observing (useInView_cleanup (run es (mount (Some el) o))) = [].
Proof.
  intros Hes.
  destruct (subscribed_run el es _ Hes (subscribed_mount el o))
    as (Href & ob & Hob & Hreg).
  split; [now exists ob|].
  unfold useInView_cleanup. rewrite Hob; simpl. rewrite Href, Hreg.
  unfold unobserve. now rewrite filter_cons_False by (intros H; now apply H).
Qed.

Lemma resubscription_keeps_one_witness :
  observing (useInView_cleanup
               (run [Rerender true {| threshold := 0.1 |};
                     Notify [{| isIntersecting := true;
                                intersectionRatio := 0.4 |}];
                     Rerender true {| threshold := 0.1 |}]
                    (mount (Some 3%nat) {| threshold := 0.1 |}))) = [].
Proof.
  refine (proj2 (resubscription_keeps_one 3%nat {| threshold := 0.1 |} _ _)).
  repeat constructor.
Defined.

Lemma unset_ref_step h e :
  keeps_ref e = true -> ref_current h = None -> observing h = [] ->
  ref_current (step h e) = None /\ observing (step h e) = [].
Proof.
  intros He Href Hreg. destruct e as [entries|changed opts|r]; [| |discriminate].
  - cbn [step]. unfold deliver, observer_callback.
    destruct entries as [|entry rest]; [now split|].
    destruct (isIntersecting entry); now split.
  - cbn [step]. unfold rerender. destruct changed; [|now split].
    unfold useInView_effect, useInView_cleanup.
    destruct (effect_observer h); simpl; rewrite Href; now split.
Qed.

(** X3. A tracker whose ref is never attached makes no subscription, at
    mount or at any later re-subscription, and nothing fails. *)
Theorem unset_ref_never_subscribes (o : ObserverOptions) (es : list Event) :
  Forall (fun e => keeps_ref e = true) es ->
  observing (run es (mount None o)) = []
  /\ ref_current (run es (mount None o)) = None.
Proof.
  intros Hes.
  assert (Hgen : forall h, ref_current h = None -> observing h = [] ->
                   ref_current (run es h) = None /\ observing (run es h) = []).
  { induction Hes as [|e es He _ IH]; intros h Href Hreg; simpl; [now split|].
    destruct (unset_ref_step h e He Href Hreg). now apply IH. }
  destruct (Hgen (mount None o) eq_refl eq_refl). now split.
Qed.

Lemma unset_ref_never_subscribes_witness :
  observing (run [Rerender true {| threshold := 0.3 |};
                  Rerender true {| threshold := 0.3 |}]
                 (mount None {| threshold := 0.3 |})) = [].
Proof.
  refine (proj1 (unset_ref_never_subscribes {| threshold := 0.3 |} _ _)).
  repeat constructor.
Defined.

End TrackerTraces.

(** ** The scroll hint over whole traces *)

Module ScrollTraces.
Import App AppFacts.

Lemma handleScroll_shows y p :
  showScrollIndicator (handleScroll (Some y) p) = Qle_bool y 100.
Proof.
  unfold handleScroll, Qltb.
  destruct (Qle_bool y 100); reflexivity.
Qed.

Lemma render_keeps_hint p :
  showScrollIndicator (render p) = showScrollIndicator p.
Proof. unfold render. now destruct (decide _). Qed.

Lemma hint_follows es : forall p acc,
  mounted p ->
  showScrollIndicator p
  = match acc with Some y => Qle_bool y 100 | None => true end ->
  showScrollIndicator (run es p)
  = match last_scroll_from acc es with
    | Some y => Qle_bool y 100
    | None => true
    end.
Proof.
  induction es as [|e es IH]; intros p acc Hp Hacc; [exact Hacc|].
  simpl. unfold last_scroll_from in *. simpl.
  apply IH; [now apply mounted_step|].
  destruct e as [|y]; cbn [step].
  - now rewrite render_keeps_hint.
  - destruct Hp as (_ & _ & Hl). unfold fire_scroll. rewrite Hl.
    cbn [fold_left]. apply handleScroll_shows.
Qed.

(** X4. After any trace of renders and scroll notifications the hint shows
    what the latest scroll offset says (visible when it is at most 100) and
    is visible when there was no scroll yet; renders and earlier offsets do
    not matter. *)
Theorem hint_follows_last_scroll (es : list Event) :
  showScrollIndicator (run es mount)
  = match last_scroll es with
    | Some y => Qle_bool y 100
    | None => true
    end.
Proof. apply hint_follows; [apply mounted_mount|reflexivity]. Qed.

(** X5. Once the page is unmounted, scroll notifications reach no listener:
    however many arrive, the state stays what the unmount left. *)
Theorem scroll_after_unmount (es : list Event) (ys : list Q) :
  run (Scroll <$> ys) (unmount (run es mount)) = unmount (run es mount).
Proof.
  assert (Hnone : scroll_listeners (unmount (run es mount)) = []).
  { destruct (mounted_run es mount mounted_mount) as (_ & Hd & Hl).
    unfold unmount. rewrite Hd; simpl. now rewrite Hl. }
  induction ys as [|y ys IH]; [reflexivity|].
  rewrite fmap_cons. cbn [run fold_left step]. unfold fire_scroll at 1.
  rewrite Hnone. cbn [fold_left]. exact IH.
Qed.

End ScrollTraces.

(** ** Layout of the narrative sections *)

Module NarrativeLayout.
Import Narrative.



End NarrativeLayout.

(** ** Repeated load failures *)

Module FallbackSettles.
Import Dom DomFacts.

(** X8. After one load failure or more, an element shows the placeholder
    and never its first URL again; its alternative text and its listener
    are what they were at creation. *)
Theorem fallback_settles (n : nat) (url a ph : string) :
  let el := fail_times (S n) (create_img url a (Fallback ph)) in
  src el = ph /\ img_alt el = a
  /\ error_listener el = Some (Fallback ph) /\ onerror el = None.
Proof.
  unfold create_img. rewrite fail_times_writes. now repeat split.
Qed.

End FallbackSettles.

(** ** The shuffle *)

Module ShuffleFacts.
Import Collage CollageSpec CollageFacts.

Lemma swap_length {A} (i j : nat) (arr : list A) :
  length (swap i j arr) = length arr.
Proof.
  unfold swap. destruct (arr !! i); [|reflexivity].
  destruct (arr !! j); [|reflexivity]. now rewrite !length_insert.
Qed.

(** X9. The shuffle returns a permutation of its input, of the same length,
    whenever the draws lie in [0,1). *)
Theorem shuffle_permutes {A} (arr : list A) (s : RandomSource) :
  in_unit s ->
  fst (shuffle arr s) ≡ₚ arr
  /\ length (fst (shuffle arr s)) = length arr.
Proof.
  intros Hs.
  destruct (spec_shuffle in_unit unit_draw in_unit_next arr s Hs)
    as [Hperm _].
  split; [assumption|]. now rewrite Hperm.
Qed.

Lemma shuffle_permutes_witness :
  fst (shuffle [10; 20; 30; 40; 50]%nat sample_source)
    ≡ₚ [10; 20; 30; 40; 50]%nat.
Proof.
  exact (proj1 (shuffle_permutes [10; 20; 30; 40; 50]%nat sample_source
                  sample_source_in_unit)).
Defined.



End ShuffleFacts.

(** ** How many random numbers a run takes *)

Module DrawCount.
Import Collage.

Lemma exactly_ret {A} (a : A) (P : A -> Prop) :
  P a -> draws_exactly (ret a) 0 P.
Proof. intros Ha s. now split. Qed.

Lemma exactly_bind {A B} (c : Rand A) (k : A -> Rand B) d1 d2
    (P : A -> Prop) (Q : B -> Prop) :
  draws_exactly c d1 P -> (forall a, P a -> draws_exactly (k a) d2 Q) ->
  draws_exactly (bind c k) (d1 + d2) Q.
Proof.
  intros Hc Hk s. unfold bind.
  destruct (Hc s) as [Ha Hs']. destruct (c s) as [a s']; simpl in *.
  destruct (Hk a Ha s') as [Hb Hs'']. split; [assumption|].
  intros n. rewrite Hs'', Hs'. f_equal. lia.
Qed.

Lemma exactly_random : draws_exactly Math_random 1 (fun _ => True).
Proof. intros s. now split. Qed.

Lemma exactly_count {A} (c : Rand A) d d' (P : A -> Prop) :
  d = d' -> draws_exactly c d P -> draws_exactly c d' P.
Proof. now intros ->. Qed.

Lemma exactly_weaken {A} (c : Rand A) d (P Q : A -> Prop) :
  draws_exactly c d P -> (forall a, P a -> Q a) -> draws_exactly c d Q.
Proof. intros Hc HPQ s. destruct (Hc s). split; auto. Qed.

Lemma exactly_mapM {A B} (f : A -> Rand B) d (R : A -> B -> Prop) l :
  (forall a, draws_exactly (f a) d (R a)) ->
  draws_exactly (mapM f l) (length l * d) (Forall2 R l).
Proof.
  intros Hf. induction l as [|a l IH]; simpl.
  - apply exactly_ret. constructor.
  - apply (exactly_count _ (d + (length l * d + 0))); [lia|].
    eapply exactly_bind; [apply Hf|]. intros b Hb.
    eapply exactly_bind; [apply IH|]. intros bs Hbs.
    apply exactly_ret. now constructor.
Qed.

Lemma exactly_mapM_index {A B} (f : nat -> A -> Rand B) d l :
  (forall i a, draws_exactly (f i a) d (fun _ => True)) ->
  forall index,
    draws_exactly (mapM_index f index l) (length l * d)
                  (fun out => length out = length l).
Proof.
  intros Hf. induction l as [|a l IH]; intros index; simpl.
  - now apply exactly_ret.
  - apply (exactly_count _ (d + (length l * d + 0))); [lia|].
    eapply exactly_bind; [apply Hf|]. intros b _.
    eapply exactly_bind; [apply IH|]. intros bs Hbs.
    apply exactly_ret. simpl. now rewrite Hbs.
Qed.

Lemma exactly_shuffle_from {A} (i : nat) : forall arr : list A,
  draws_exactly (shuffle_from i arr) i (fun out => length out = length arr).
Proof.
  induction i as [|i IH]; intros arr; cbn [shuffle_from].
  - now apply exactly_ret.
  - apply (exactly_count _ (1 + i)); [lia|].
    eapply exactly_bind; [apply exactly_random|]. intros r _.
    eapply exactly_weaken; [apply IH|].
    intros out Hout. cbv beta in Hout. rewrite Hout.
    apply ShuffleFacts.swap_length.
Qed.

Lemma rows_total {A B} (n : nat) (idxs : list A) (rows : list (list B)) :
  Forall2 (fun _ row => length row = n) idxs rows ->
  length (concat rows) = (length idxs * n)%nat.
Proof.
  induction 1 as [|i row idxs rows Hrow _ IH]; [reflexivity|].
  simpl. now rewrite length_app, Hrow, IH.
Qed.

Lemma exactly_expand numToString k (images : list CollageItem) :
  draws_exactly (expand numToString k images) (k * length images)
                (fun dense => length dense = (k * length images)%nat).
Proof.
  unfold expand, Array_from.
  apply (exactly_count _ (length (seq 0 k) * (length images * 1) + 0));
    [rewrite length_seq; lia|].
  eapply exactly_bind.
  - apply (exactly_mapM _ _ (fun _ row => length row = length images)).
    intros i. eapply exactly_weaken.
    + apply (exactly_mapM (tag numToString i) 1 (fun _ _ => True)).
      intros im. unfold tag.
      apply (exactly_count _ (1 + 0)); [lia|].
      eapply exactly_bind; [apply exactly_random|]. intros r _.
      now apply exactly_ret.
    + intros row Hrow. symmetry. exact (Forall2_length _ _ _ Hrow).
  - intros rows Hrows. apply exactly_ret.
    rewrite (rows_total _ _ _ Hrows). now rewrite length_seq.
Qed.

Lemma exactly_place index d :
  draws_exactly (place index d) 6 (fun _ => True).
Proof.
  unfold place.
  apply (exactly_count _ (1 + (1 + (1 + (1 + (1 + (1 + 0))))))); [lia|].
  do 6 (eapply exactly_bind; [apply exactly_random|]; intros ? _).
  now apply exactly_ret.
Qed.

(** X11. A run of the generator on [n] images with factor [k] takes
    [k*n] draws for the keys, [k*n - 1] for the shuffle and six per
    placement, whatever the values drawn; on an empty input it takes none
    and yields no placement. *)
Theorem generate_draws (numToString : Q -> string) (k : nat)
    (images : list CollageItem) (s : RandomSource) :
  let m := (k * length images)%nat in
  length (fst (generate numToString k images s)) = m
  /\ forall n,
       snd (generate numToString k images s) n
       = s (m + (m - 1) + 6 * m + n)%nat.
Proof.
  intros m.
  assert (H : draws_exactly (generate numToString k images)
                (m + ((m - 1) + m * 6))
                (fun out => length out = m)).
  { subst m. unfold generate.
    eapply exactly_bind; [apply exactly_expand|]. intros dense Hdense.
    eapply exactly_bind.
    - apply (exactly_count _ (length dense - 1)); [now rewrite Hdense|].
      unfold shuffle. apply exactly_shuffle_from.
    - intros shuffled Hshuffled. cbv beta in Hshuffled.
      apply (exactly_count _ (length shuffled * 6));
        [now rewrite Hshuffled, Hdense|].
      eapply exactly_weaken;
        [apply (exactly_mapM_index place 6 shuffled exactly_place)|].
      intros out Hout. cbv beta in Hout.
      now rewrite Hout, Hshuffled, Hdense. }
  destruct (H s) as [Hlen Hs]. split; [exact Hlen|].
  intros n. rewrite Hs. f_equal. lia.
Qed.

End DrawCount.

(** ** The expansion and the keys, for any duplication factor *)

Module ExpansionFacts.
Import Collage CollageSpec CollageFacts CollageEntries.

Lemma rows_sources (images : list CollageItem) (idxs : list nat) :
  snd <$> concat ((fun i => (fun im => (i, im)) <$> images) <$> idxs)
  = concat (replicate (length idxs) images).
Proof.
  induction idxs as [|i idxs IH]; [reflexivity|].
  rewrite fmap_cons. cbn [concat length replicate].
  now rewrite fmap_app, IH, (row_sources images i).
Qed.

(** X12. Before the shuffle the working list is the input repeated [k]
    times over, each repetition in the order of the input. *)
Theorem expand_in_order (numToString : Q -> string) (k : nat)
    (images : list CollageItem) (s : RandomSource) :
  img <$> fst (expand numToString k images s)
  = concat (replicate k images).
Proof.
  destruct (spec_expand (fun _ => True) (fun _ => True) any_source_next
              numToString k images s Logic.I) as [Htag _].
  rewrite (tagged_sources numToString _ _ Htag).
  unfold tags. now rewrite rows_sources, length_seq.
Qed.

(** X13. For any duplication factor [k], also one with several digits, and
    pairwise distinct file names: the generator yields [k] placements per
    image, [k * n] in all, and no two of them share a key. *)
Theorem generate_entries_any_factor (numToString : Q -> string) (k : nat)
    (images : list CollageItem) (s : RandomSource) :
  number_text numToString -> in_unit s ->
  NoDup ((fun im => filename (item im)) <$> images) ->
  length (fst (generate numToString k images s)) = (k * length images)%nat
  /\ NoDup (key <$> fst (generate numToString k images s))
  /\ (forall im, im ∈ images ->
        length (filter (fun p => img (sourceImage p) = im)
                       (fst (generate numToString k images s))) = k).
Proof.
  intros Hnum Hs Hnames.
  destruct (generated_entries numToString unit_draw k images _ Hnum Hnames
              (generate_unit numToString k images s Hs))
    as (Hlen & Hkeys & Hcount).
  split; [assumption|]. split; [assumption|].
  intros im Him.
  etransitivity; [exact (Hcount (fun b => b = im) _)|].
  rewrite filter_eq_NoDup; [lia| |assumption].
  now apply NoDup_fmap_1 in Hnames.
Qed.

Lemma generate_entries_any_factor_witness :
  length (fst (generate sample_numToString 12 sample_images sample_source))
  = 24%nat
  /\ NoDup (key <$> fst (generate sample_numToString 12 sample_images
                           sample_source)).
Proof.
  assert (Hnames : NoDup ((fun im => filename (item im)) <$> sample_images)).
  { apply (bool_decide_unpack _). vm_compute. exact Logic.I. }
  destruct (generate_entries_any_factor sample_numToString 12 sample_images
              sample_source sample_numToString_text sample_source_in_unit
              Hnames) as (Hlen & Hkeys & _).
  split; [exact Hlen|exact Hkeys].
Defined.

Lemma append_cancel (a x y : string) : a +:+ x = a +:+ y -> x = y.
Proof.
  intros H. apply KeyFacts.chars_inj. apply (f_equal chars) in H.
  rewrite !KeyFacts.chars_app in H. now apply app_inv_head in H.
Qed.

(** X14. A key tells its parts: two keys are the same string only when the
    file name, the repetition index and the text of the random number all
    agree, also for file names that themselves hold dashes or digits. *)
Theorem make_key_parts (numToString : Q -> string) (f1 f2 : string)
    (i1 i2 : nat) (r1 r2 : Q) :
  number_text numToString ->
  make_key numToString f1 i1 r1 = make_key numToString f2 i2 r2 ->
  f1 = f2 /\ i1 = i2 /\ numToString r1 = numToString r2.
Proof.
  intros Hnum Heq.
  destruct (KeyFacts.make_key_inj numToString _ _ _ _ _ _ Hnum Heq)
    as [-> ->].
  split; [reflexivity|]. split; [reflexivity|].
  unfold make_key in Heq.
  now do 4 apply append_cancel in Heq.
Qed.

Lemma make_key_parts_witness :
  sample_numToString (1 # 4) = sample_numToString (1 # 3).
Proof.
  exact (proj2 (proj2 (make_key_parts sample_numToString
                         "new-2-pic.png" "new-2-pic.png" 10 10 (1 # 4) (1 # 3)
                         sample_numToString_text eq_refl))).
Defined.

Lemma tags_members k (images : list CollageItem) (t : nat * CollageItem) :
  t ∈ tags k images -> (fst t < k)%nat /\ snd t ∈ images.
Proof.
  unfold tags. intros Hin.
  apply list_elem_of_In, in_concat in Hin as (row & Hrow & Hin).
  apply list_elem_of_In, list_elem_of_fmap in Hrow as (i & -> & Hi).
  apply list_elem_of_In, list_elem_of_fmap in Hin as (im & -> & Him).
  apply elem_of_seq in Hi. simpl. split; [lia|assumption].
Qed.

(** X15. Every rendered collage image belongs to one input record: it
    shows that record's URL and alternative text, carries the fallback
    handler, and its React key is [filename-i-number] made from that
    record's file name and a repetition index below the factor 4. *)
Theorem placement_shows_source (numToString : Q -> string)
    (images : list CollageItem) (s : RandomSource) (i : nat)
    (p : Placement) :
  fst (DynamicCollageBackground numToString images s) !! i = Some p ->
  img (sourceImage p) ∈ images
  /\ Dom.src (element p) = imgUrl (img (sourceImage p))
  /\ Dom.img_alt (element p) = alt (item (img (sourceImage p)))
  /\ Dom.error_listener (element p) = Some (Dom.Fallback placeholder)
  /\ exists rep r,
       (rep < 4)%nat
       /\ key p = make_key numToString
                    (filename (item (img (sourceImage p)))) rep r.
Proof.
  intros Hi. unfold DynamicCollageBackground in Hi.
  destruct (generate_any numToString duplicationFactor images s)
    as (dense & shuffled & Htag & Hperm & _ & Hpt).
  destruct (Hpt i p Hi) as (d & Hd & Hsrc & Hkey & _ & _ & Hel & _).
  apply list_elem_of_lookup_2 in Hd. rewrite Hperm in Hd.
  apply list_elem_of_lookup in Hd as [n Hn].
  destruct (Forall2_lookup_r _ _ _ _ _ Htag Hn)
    as (t & Ht & Himg & r & Hr).
  apply list_elem_of_lookup_2, tags_members in Ht as [Hrep Hmem].
  rewrite Hsrc, Hel, Hkey. simpl.
  rewrite Himg. repeat split; try assumption.
  exists (fst t), r. split; [exact Hrep|exact Hr].
Qed.

Lemma placement_shows_source_witness :
  exists p,
    fst (DynamicCollageBackground sample_numToString sample_images
           sample_source) !! 0%nat = Some p
    /\ img (sourceImage p) ∈ sample_images.
Proof.
  eexists. split; [reflexivity|].
  exact (proj1 (placement_shows_source sample_numToString sample_images
                  sample_source 0 _ eq_refl)).
Defined.

End ExpansionFacts.
